(** * Online quiz application: the grader and the safe question view

    A shallow embedding of [backend/models.py], [backend/schemas.py],
    [backend/crud.py], the [/questions/] and [/submit/] endpoints of
    [backend/main.py] and [backend/seed.py], followed by the properties of
    the grading pass, of the snapshot read from the tables and of seeding.

    Python integers are unbounded, so identifiers and the score are [Z].
    The two dictionaries of [calculate_score] are [gmap Z Z].  The objects
    reachable from the arguments of [calculate_score] (the rows behind the
    session and the submitted payload) live in an explicit memory that every
    operation of [crud] threads through.  Module [frame] gives
    [calculate_score] a second time, statement by statement, with its
    mutable local variables in the state; the two are proved to return the
    same result. *)

From stdpp Require Import base gmap list strings.

Local Open Scope string_scope.
Local Open Scope list_scope.
Local Open Scope Z_scope.

(** ** [models.py]: the rows held by the store *)

Module models.

(** A row of table [choices].  The foreign key [question_id] is what the
    relationship [Question.choices] is resolved from; a loaded question
    carries the resolved list, so the column itself is not repeated here. *)
Module Choice.
Record t : Type := mk {
  id : Z;
  text : string;
  is_correct : bool
}.
End Choice.

(** A row of table [questions] with its [choices] relationship loaded. *)
Module Question.
Record t : Type := mk {
  id : Z;
  text : string;
  choices : list Choice.t
}.
End Question.

End models.

(** ** [schemas.py]: what crosses the API boundary *)

Module schemas.

(** [Choice(ChoiceBase)]: [text] and [id]; it purposefully omits
    [is_correct]. *)
Module Choice.
Record t : Type := mk {
  text : string;
  id : Z
}.
End Choice.

(** [Question(QuestionBase)]: [text], [id] and the list of safe choices. *)
Module Question.
Record t : Type := mk {
  text : string;
  id : Z;
  choices : list Choice.t
}.
End Question.

Module UserAnswer.
Record t : Type := mk {
  question_id : Z;
  choice_id : Z
}.
End UserAnswer.

Module AnswerPayload.
Record t : Type := mk {
  answers : list UserAnswer.t
}.
End AnswerPayload.

Module QuestionResult.
Record t : Type := mk {
  question_id : Z;
  question_text : string;
  user_answer_text : string;
  correct_answer_text : string;
  is_correct : bool
}.
End QuestionResult.

Module QuizResult.
Record t : Type := mk {
  score : Z;
  total : Z;
  results : list QuestionResult.t
}.
End QuizResult.

End schemas.

(** ** [crud.py] *)

Module crud.

(** The two objects [calculate_score] receives by reference: the session
    [db], seen through the question rows a query returns (in the store's
    retrieval order), and the request payload [user_answers]. *)
Record Mem : Type := mkMem {
  db : list models.Question.t;
  user_answers : schemas.AnswerPayload.t
}.

(** Computations that may read and write the memory. *)
Definition M (A : Type) : Type := Mem → A * Mem.

#[global] Instance M_ret : MRet M := λ A (a : A) (m : Mem), (a, m).

#[global] Instance M_bind : MBind M :=
  λ A B (k : A → M B) (c : M A) (m : Mem), let '(a, m') := c m in k a m'.

Definition gets {A : Type} (f : Mem → A) : M A := λ m, (f m, m).

(** [db.query(models.Question).options(joinedload(...)).all()] *)
Definition get_questions : M (list models.Question.t) := gets db.

(** The dict comprehension
    [{answer.question_id: answer.choice_id for answer in user_answers.answers}]:
    pairs are stored in list order and a later pair overwrites an earlier
    one with the same key. *)
Definition user_answers_map_of (answers : list schemas.UserAnswer.t) : gmap Z Z :=
  foldl (λ (d : gmap Z Z) answer,
           <[schemas.UserAnswer.question_id answer
             := schemas.UserAnswer.choice_id answer]> d)
        ∅ answers.

(** The inner loop of the answer key,
    [for choice in question.choices: if choice.is_correct: ...; break],
    yields the id it stores, if it stores one. *)
Fixpoint first_correct_id (choices : list models.Choice.t) : option Z :=
  match choices with
  | [] => None
  | choice :: rest =>
      if models.Choice.is_correct choice
      then Some (models.Choice.id choice)
      else first_correct_id rest
  end.

(** The outer loop of the answer key: [answer_key[question.id] = choice.id]
    on the dictionary built so far. *)
Definition answer_key_of (all_questions : list models.Question.t) : gmap Z Z :=
  foldl (λ (answer_key : gmap Z Z) question,
           match first_correct_id (models.Question.choices question) with
           | Some cid => <[models.Question.id question := cid]> answer_key
           | None => answer_key
           end)
        ∅ all_questions.

(** One iteration of [for choice in question.choices] at lines 49-53, on
    the pair [(user_answer_text, correct_answer_text)].  Both ids come from
    [dict.get] and may be [None], which no integer equals. *)
Definition scan_choice (user_choice_id correct_choice_id : option Z)
    (texts : string * string) (choice : models.Choice.t) : string * string :=
  let '(user_answer_text, correct_answer_text) := texts in
  let user_answer_text :=
    if bool_decide (Some (models.Choice.id choice) = user_choice_id)
    then models.Choice.text choice else user_answer_text in
  let correct_answer_text :=
    if bool_decide (Some (models.Choice.id choice) = correct_choice_id)
    then models.Choice.text choice else correct_answer_text in
  (user_answer_text, correct_answer_text).

(** One iteration of the grading loop at lines 34-63, on the pair
    [(score, detailed_results)]. *)
Definition grade_question (user_answers_map answer_key : gmap Z Z)
    (st : Z * list schemas.QuestionResult.t) (question : models.Question.t)
    : Z * list schemas.QuestionResult.t :=
  let '(score, detailed_results) := st in
  let question_id := models.Question.id question in
  let user_choice_id := user_answers_map !! question_id in
  let correct_choice_id := answer_key !! question_id in
  let is_correct :=
    bool_decide (user_choice_id ≠ None)
    && bool_decide (user_choice_id = correct_choice_id) in
  let score := if is_correct then score + 1 else score in
  let '(user_answer_text, correct_answer_text) :=
    foldl (scan_choice user_choice_id correct_choice_id)
          ("Unanswered", "") (models.Question.choices question) in
  (score,
   (detailed_results ++
      [schemas.QuestionResult.mk (models.Question.id question)
         (models.Question.text question)
         user_answer_text correct_answer_text is_correct])%list).

Definition calculate_score : M schemas.QuizResult.t :=
  all_questions ← get_questions;
  answers ← gets (λ m, schemas.AnswerPayload.answers (user_answers m));
  let user_answers_map := user_answers_map_of answers in
  let answer_key := answer_key_of all_questions in
  let '(score, detailed_results) :=
    foldl (grade_question user_answers_map answer_key) (0, []) all_questions in
  mret (schemas.QuizResult.mk score (Z.of_nat (length all_questions))
          detailed_results).

End crud.

(** ** [main.py]: the [/questions/] endpoint *)

Module main.

(** Serialisation through [response_model=List[schemas.Question]]: each
    row is read attribute by attribute ([from_attributes=True]) into the
    fields the schema declares. *)
Definition to_schema_choice (c : models.Choice.t) : schemas.Choice.t :=
  schemas.Choice.mk (models.Choice.text c) (models.Choice.id c).

Definition to_schema_question (q : models.Question.t) : schemas.Question.t :=
  schemas.Question.mk (models.Question.text q) (models.Question.id q)
    (to_schema_choice <$> models.Question.choices q).

Definition read_questions : crud.M (list schemas.Question.t) :=
  questions ← crud.get_questions;
  mret (to_schema_question <$> questions).

End main.

(** ** The grader as the specification names it *)

(** [grade Q S]: the result of [calculate_score] when the store holds [Q]
    and the payload carries [S]. *)
Definition grade (Q : list models.Question.t) (S : list schemas.UserAnswer.t)
    : schemas.QuizResult.t :=
  (crud.calculate_score (crud.mkMem Q (schemas.AnswerPayload.mk S))).1.

(** The safe view of a question set. *)
Definition safe_view (Q : list models.Question.t) : list schemas.Question.t :=
  (main.read_questions (crud.mkMem Q (schemas.AnswerPayload.mk []))).1.

(** ** Notions the properties are stated with *)

(** Question identifiers are the primary key of table [questions]: no two
    questions of a snapshot share one. *)
Definition unique_question_ids (Q : list models.Question.t) : Prop :=
  NoDup (models.Question.id <$> Q).

(** Choice identifiers are the primary key of table [choices]: no two
    choices of a question share one. *)
Definition unique_choice_ids (q : models.Question.t) : Prop :=
  NoDup (models.Choice.id <$> models.Question.choices q).

(** The text one of the two assignments of lines 49-53 leaves behind: the
    text of the last choice whose id is [target], [init] when there is none. *)
Definition pick_text (target : option Z) (init : string)
    (choices : list models.Choice.t) : string :=
  foldl (λ t choice,
           if bool_decide (Some (models.Choice.id choice) = target)
           then models.Choice.text choice else t)
        init choices.

(** The record one iteration of the grading loop appends, in closed form. *)
Definition question_result (user_answers_map answer_key : gmap Z Z)
    (q : models.Question.t) : schemas.QuestionResult.t :=
  let u := user_answers_map !! models.Question.id q in
  let c := answer_key !! models.Question.id q in
  schemas.QuestionResult.mk (models.Question.id q) (models.Question.text q)
    (pick_text u "Unanswered" (models.Question.choices q))
    (pick_text c "" (models.Question.choices q))
    (bool_decide (u ≠ None) && bool_decide (u = c)).

(** Number of results marked correct. *)
Definition count_correct (rs : list schemas.QuestionResult.t) : Z :=
  Z.of_nat (length (filter (λ r, schemas.QuestionResult.is_correct r = true) rs)).

(** [c] is the first choice of [choices], in stored order, flagged correct. *)
Definition first_correct_choice (choices : list models.Choice.t)
    (c : models.Choice.t) : Prop :=
  ∃ before after,
    choices = before ++ c :: after
    ∧ Forall (λ c', models.Choice.is_correct c' = false) before
    ∧ models.Choice.is_correct c = true.

(** Two choices, and two questions, that differ at most in the
    [is_correct] flags. *)
Definition choice_same_but_flag (c1 c2 : models.Choice.t) : Prop :=
  models.Choice.id c1 = models.Choice.id c2
  ∧ models.Choice.text c1 = models.Choice.text c2.

Definition question_same_but_flags (q1 q2 : models.Question.t) : Prop :=
  models.Question.id q1 = models.Question.id q2
  ∧ models.Question.text q1 = models.Question.text q2
  ∧ Forall2 choice_same_but_flag
      (models.Question.choices q1) (models.Question.choices q2).

(** What [user_answers_map.get(question.id)] returns for [q]: the submitted
    choice id of the question, [None] when the submission has none. *)
Definition submitted_choice_id (S : list schemas.UserAnswer.t)
    (q : models.Question.t) : option Z :=
  crud.user_answers_map_of S !! models.Question.id q.

(** The pairs of a submission that name a question of [Q]. *)
Definition relevant_answers (Q : list models.Question.t)
    (S : list schemas.UserAnswer.t) : list schemas.UserAnswer.t :=
  filter (λ a, schemas.UserAnswer.question_id a ∈ (models.Question.id <$> Q)) S.

(** A small store and a submission to run the properties on: question 1 has
    two choices flagged correct, question 2 has none, question 3 is not
    answered; question 1 is answered twice and question 7 does not exist. *)
Definition demo_questions : list models.Question.t :=
  [models.Question.mk 1 "Capital of France?"
     [models.Choice.mk 10 "Paris" true; models.Choice.mk 11 "Rome" false;
      models.Choice.mk 12 "Lutetia" true];
   models.Question.mk 2 "2 + 2?"
     [models.Choice.mk 20 "3" false; models.Choice.mk 21 "5" false];
   models.Question.mk 3 "Is water wet?" [models.Choice.mk 30 "Yes" true]].

Definition demo_answers : list schemas.UserAnswer.t :=
  [schemas.UserAnswer.mk 1 12; schemas.UserAnswer.mk 2 20;
   schemas.UserAnswer.mk 1 10; schemas.UserAnswer.mk 7 30].

(** ** Further notions: submissions and question sets built from others *)

(** The submission that answers every question with the id the inner loop
    of the answer key stops at, in question order; a question with no
    flagged choice gets no pair.  The tests build their all-correct payload
    this way. *)
Definition key_answers (Q : list models.Question.t) : list schemas.UserAnswer.t :=
  omap (λ q, schemas.UserAnswer.mk (models.Question.id q)
               <$> crud.first_correct_id (models.Question.choices q)) Q.

(** A question with at least one choice flagged correct. *)
Definition has_flagged_choice (q : models.Question.t) : Prop :=
  crud.first_correct_id (models.Question.choices q) ≠ None.

(** [q] with every flag after the first flagged choice cleared. *)
Definition clear_flag (c : models.Choice.t) : models.Choice.t :=
  models.Choice.mk (models.Choice.id c) (models.Choice.text c) false.

Fixpoint keep_first_flag (choices : list models.Choice.t) : list models.Choice.t :=
  match choices with
  | [] => []
  | c :: rest =>
      if models.Choice.is_correct c
      then c :: (clear_flag <$> rest)
      else c :: keep_first_flag rest
  end.

Definition single_flag (q : models.Question.t) : models.Question.t :=
  models.Question.mk (models.Question.id q) (models.Question.text q)
    (keep_first_flag (models.Question.choices q)).

(** ** [main.py]: the [/submit/] endpoint *)

Module endpoints.

(** [HTTPException(status_code=..., detail=...)] *)
Record HTTPException : Type := mkHTTPException {
  status_code : Z;
  detail : string
}.

(** [submit_quiz]: the value bound to [results] is what [calculate_score]
    returned, or Python's [None]; [None] raises the 400 error, anything
    else is the response.  The only [return] of [calculate_score] returns a
    [QuizResult]. *)
Definition submit_quiz : crud.M (HTTPException + schemas.QuizResult.t) :=
  results ← (r ← crud.calculate_score; mret (Some r));
  match results with
  | None => mret (inl (mkHTTPException 400 "Error calculating score."))
  | Some results => mret (inr results)
  end.

End endpoints.

(** ** The tables of [models.py] and the snapshot read from them *)

Module store.

(** A row of table [questions]: [id] is the primary key. *)
Module QuestionRow.
Record t : Type := mk {
  id : Z;
  text : string
}.
End QuestionRow.

(** A row of table [choices]: [id] is the primary key and [question_id]
    the foreign key to [questions.id]. *)
Module ChoiceRow.
Record t : Type := mk {
  id : Z;
  text : string;
  is_correct : bool;
  question_id : Z
}.
End ChoiceRow.

(** The two tables, each in the order its rows are retrieved. *)
Record t : Type := mk {
  questions : list QuestionRow.t;
  choices : list ChoiceRow.t
}.

Definition to_choice (r : ChoiceRow.t) : models.Choice.t :=
  models.Choice.mk (ChoiceRow.id r) (ChoiceRow.text r) (ChoiceRow.is_correct r).

(** Both [id] columns are declared [primary_key=True]. *)
Definition primary_keys (db : t) : Prop :=
  NoDup (QuestionRow.id <$> questions db) ∧ NoDup (ChoiceRow.id <$> choices db).

Section retrieval.

(** The order in which the database hands out the choice rows of one
    question.  The query of [get_questions] has no [ORDER BY] and the
    relationship no [order_by]: the source leaves this order to the
    database, which need not keep the order of insertion. *)
Variable row_order : list ChoiceRow.t → list ChoiceRow.t.

(** The relationship [Question.choices]: the choice rows whose foreign key
    is the question's id, in the order the database hands them out. *)
Definition choices_of (db : t) (question_id : Z) : list models.Choice.t :=
  to_choice
    <$> row_order
          (filter (λ r, ChoiceRow.question_id r = question_id) (choices db)).

(** [crud.get_questions]: every question row with its choices loaded. *)
Definition get_questions (db : t) : list models.Question.t :=
  (λ r, models.Question.mk (QuestionRow.id r) (QuestionRow.text r)
          (choices_of db (QuestionRow.id r))) <$> questions db.

End retrieval.

End store.

(** ** [seed.py] *)

Module seed.

(** [questions_data]: each entry is the ["text"] of a question and its
    ["choices"], each a ["text"] and an ["is_correct"] flag. *)
Definition questions_data : list (string * list (string * bool)) :=
  [("What is the primary web framework used in this application's backend?",
    [("Django", false); ("FastAPI", true); ("Flask", false)]);
   ("Which library is used for data validation and settings management in FastAPI?",
    [("Marshmallow", false); ("Pydantic", true); ("Voluptuous", false)]);
   ("What does ASGI stand for in the context of Python web servers like Uvicorn?",
    [("Asynchronous Server Gateway Interface", true);
     ("Automated Server Gateway Interaction", false);
     ("Asynchronous Standard Gateway Interface", false)]);
   ("Which frontend framework is this project planned to use?",
    [("Next.js", true); ("React (CRA)", false); ("Vue.js", false)]);
   ("What type of database is being used in this project?",
    [("PostgreSQL", false); ("MySQL", false); ("SQLite", true)])].

Section seed_database.

(** The primary key the database gives a new row, from the keys its table
    holds.  The source leaves the choice to the database. *)
Variable new_id : list Z → Z.

(** [db.add(models.Choice(text=..., is_correct=..., question_id=question.id))] *)
Definition add_choice (question_id : Z) (db : store.t)
    (c_data : string * bool) : store.t :=
  store.mk (store.questions db)
    (store.choices db
     ++ [store.ChoiceRow.mk (new_id (store.ChoiceRow.id <$> store.choices db))
           c_data.1 c_data.2 question_id]).

(** One iteration of [for q_data in questions_data]: the question is added
    and flushed, which gives it its id, then its choices are added. *)
Definition seed_question (db : store.t)
    (q_data : string * list (string * bool)) : store.t :=
  let question_id := new_id (store.QuestionRow.id <$> store.questions db) in
  let db :=
    store.mk (store.questions db ++ [store.QuestionRow.mk question_id q_data.1])
      (store.choices db) in
  foldl (add_choice question_id) db q_data.2.

(** [seed_database]: both tables are emptied, then the loop of lines 65-75
    inserts [questions_data].  (The final [print] is not modelled.) *)
Definition seed_database (db : store.t) : store.t :=
  let db := store.mk (store.questions db) [] in
  let db := store.mk [] (store.choices db) in
  foldl seed_question db questions_data.

End seed_database.

End seed.

(** The question data a snapshot carries once identifiers are forgotten. *)
Definition data_of_question (q : models.Question.t)
    : string * list (string * bool) :=
  (models.Question.text q,
   (λ c, (models.Choice.text c, models.Choice.is_correct c))
     <$> models.Question.choices q).

(** Two entries of question data with the same question text and the same
    choices up to their order. *)
Definition same_question_data (d1 d2 : string * list (string * bool)) : Prop :=
  d1.1 = d2.1 ∧ d1.2 ≡ₚ d2.2.

(** Every foreign key of table [choices] is the key of a question row. *)
Definition foreign_keys (db : store.t) : Prop :=
  Forall (λ r, store.ChoiceRow.question_id r
               ∈ (store.QuestionRow.id <$> store.questions db))
         (store.choices db).

(** A key allocator to run the seed with: the largest key in use plus one. *)
Definition next_id (used : list Z) : Z := 1 + foldr Z.max 0 used.

(** ** The submission read as a list *)

(** The answer a submission gives to a question, read off the list of
    pairs without any dictionary: the choice id of the last pair that names
    the question, [None] when no pair names it. *)
Definition last_submitted (S : list schemas.UserAnswer.t) (question_id : Z)
    : option Z :=
  schemas.UserAnswer.choice_id
    <$> last (filter (λ a, schemas.UserAnswer.question_id a = question_id) S).

(** ** [calculate_score] statement by statement *)

Module frame.

(** Everything a run of [calculate_score] can touch: the two objects it
    receives by reference, and its local variables that are assigned more
    than once or updated in place.  Locals assigned once per iteration
    ([all_questions], [user_answers_map], [question_id], [user_choice_id],
    [correct_choice_id], [is_correct]) are [let]-bound. *)
Record t : Type := mk {
  db : list models.Question.t;
  user_answers : schemas.AnswerPayload.t;
  score : Z;
  answer_key : gmap Z Z;
  detailed_results : list schemas.QuestionResult.t;
  user_answer_text : string;
  correct_answer_text : string
}.

Definition M (A : Type) : Type := t → A * t.

#[global] Instance M_ret : MRet M := λ A (a : A) (st : t), (a, st).

#[global] Instance M_bind : MBind M :=
  λ A B (k : A → M B) (c : M A) (st : t), let '(a, st') := c st in k a st'.

Definition read {A : Type} (f : t → A) : M A := λ st, (f st, st).

Definition write (f : t → t) : M unit := λ st, (tt, f st).

Definition set_score (v : Z) (st : t) : t :=
  mk (db st) (user_answers st) v (answer_key st) (detailed_results st)
    (user_answer_text st) (correct_answer_text st).

Definition set_answer_key (v : gmap Z Z) (st : t) : t :=
  mk (db st) (user_answers st) (score st) v (detailed_results st)
    (user_answer_text st) (correct_answer_text st).

Definition set_detailed_results (v : list schemas.QuestionResult.t) (st : t) : t :=
  mk (db st) (user_answers st) (score st) (answer_key st) v
    (user_answer_text st) (correct_answer_text st).

Definition set_user_answer_text (v : string) (st : t) : t :=
  mk (db st) (user_answers st) (score st) (answer_key st) (detailed_results st)
    v (correct_answer_text st).

Definition set_correct_answer_text (v : string) (st : t) : t :=
  mk (db st) (user_answers st) (score st) (answer_key st) (detailed_results st)
    (user_answer_text st) v.

(** [for x in l: body] *)
Fixpoint for_each {A : Type} (l : list A) (body : A → M unit) : M unit :=
  match l with
  | [] => mret tt
  | x :: rest => _ ← body x; for_each rest body
  end.

(** [for x in l: body], where the body says whether it ran [break]. *)
Fixpoint for_break {A : Type} (l : list A) (body : A → M bool) : M unit :=
  match l with
  | [] => mret tt
  | x :: rest => stop ← body x; if (stop : bool) then mret tt else for_break rest body
  end.

(** Lines 28-31: the body of [for choice in question.choices]. *)
Definition key_body (question : models.Question.t) (choice : models.Choice.t)
    : M bool :=
  if models.Choice.is_correct choice
  then _ ← write (λ st, set_answer_key
                          (<[models.Question.id question
                             := models.Choice.id choice]> (answer_key st)) st);
       mret true
  else mret false.

(** Lines 50-53: the body of the scan of the choices. *)
Definition text_body (user_choice_id correct_choice_id : option Z)
    (choice : models.Choice.t) : M unit :=
  _ ← (if bool_decide (Some (models.Choice.id choice) = user_choice_id)
       then write (set_user_answer_text (models.Choice.text choice))
       else mret tt);
  if bool_decide (Some (models.Choice.id choice) = correct_choice_id)
  then write (set_correct_answer_text (models.Choice.text choice))
  else mret tt.

(** Lines 35-63: the body of the grading loop. *)
Definition grade_body (user_answers_map : gmap Z Z)
    (question : models.Question.t) : M unit :=
  let question_id := models.Question.id question in
  let user_choice_id := user_answers_map !! question_id in
  correct_choice_id ← read (λ st, answer_key st !! question_id);
  let is_correct :=
    bool_decide (user_choice_id ≠ None)
    && bool_decide (user_choice_id = correct_choice_id) in
  _ ← (if is_correct then write (λ st, set_score (score st + 1) st)
       else mret tt);
  _ ← write (set_user_answer_text "Unanswered");
  _ ← write (set_correct_answer_text "");
  _ ← for_each (models.Question.choices question)
        (text_body user_choice_id correct_choice_id);
  shown ← read user_answer_text;
  expected ← read correct_answer_text;
  write (λ st, set_detailed_results
                 (detailed_results st
                  ++ [schemas.QuestionResult.mk (models.Question.id question)
                        (models.Question.text question) shown expected
                        is_correct]) st).

Definition calculate_score : M schemas.QuizResult.t :=
  _ ← write (set_score 0);
  all_questions ← read db;
  answers ← read (λ st, schemas.AnswerPayload.answers (user_answers st));
  let user_answers_map := crud.user_answers_map_of answers in
  _ ← write (set_answer_key ∅);
  _ ← for_each all_questions
        (λ question, for_break (models.Question.choices question)
                       (key_body question));
  _ ← write (set_detailed_results []);
  _ ← for_each all_questions (grade_body user_answers_map);
  final_score ← read score;
  results ← read detailed_results;
  mret (schemas.QuizResult.mk final_score (Z.of_nat (length all_questions))
          results).

End frame.

(** * Properties *)

(** ** Running the model *)

Example grade_demo :
  grade demo_questions demo_answers
  = schemas.QuizResult.mk 1 3
      [schemas.QuestionResult.mk 1 "Capital of France?" "Paris" "Paris" true;
       schemas.QuestionResult.mk 2 "2 + 2?" "3" "" false;
       schemas.QuestionResult.mk 3 "Is water wet?" "Unanswered" "Yes" false].
Proof. vm_compute. reflexivity. Qed.

(** The statement-level program, started with leftovers in every local
    variable, returns the same result. *)
Example frame_calculate_score_demo :
  (frame.calculate_score
     (frame.mk demo_questions (schemas.AnswerPayload.mk demo_answers)
        42 {[1 := 12]}
        [schemas.QuestionResult.mk 9 "stale" "stale" "stale" true]
        "stale" "stale")).1
  = schemas.QuizResult.mk 1 3
      [schemas.QuestionResult.mk 1 "Capital of France?" "Paris" "Paris" true;
       schemas.QuestionResult.mk 2 "2 + 2?" "3" "" false;
       schemas.QuestionResult.mk 3 "Is water wet?" "Unanswered" "Yes" false].
Proof. vm_compute. reflexivity. Qed.

(** The scenario of an unknown choice id: one question with choices 1 and 2,
    choice 1 correct, and the submitted choice 999. *)
Example grade_unknown_choice :
  grade [models.Question.mk 1 "q"
           [models.Choice.mk 1 "one" true; models.Choice.mk 2 "two" false]]
        [schemas.UserAnswer.mk 1 999]
  = schemas.QuizResult.mk 0 1
      [schemas.QuestionResult.mk 1 "q" "Unanswered" "one" false].
Proof. vm_compute. reflexivity. Qed.

(** ** The grading loop in closed form *)

Section grading_loop.
Context (user_answers_map answer_key : gmap Z Z).

Lemma scan_choice_pick u c choices a b :
  foldl (crud.scan_choice u c) (a, b) choices
  = (pick_text u a choices, pick_text c b choices).
Proof.
  revert a b. induction choices as [|ch choices IH]; intros a b; [done|].
  cbn [foldl]. unfold pick_text at 1 2. cbn [foldl].
  unfold crud.scan_choice at 2. apply IH.
Qed.

Lemma grade_question_eq score rs q :
  crud.grade_question user_answers_map answer_key (score, rs) q
  = ((if schemas.QuestionResult.is_correct
           (question_result user_answers_map answer_key q)
      then score + 1 else score),
     rs ++ [question_result user_answers_map answer_key q])%list.
Proof.
  unfold crud.grade_question. rewrite scan_choice_pick. reflexivity.
Qed.

Lemma grading_loop_eq Q score rs :
  foldl (crud.grade_question user_answers_map answer_key) (score, rs) Q
  = (score + count_correct (question_result user_answers_map answer_key <$> Q),
     (rs ++ (question_result user_answers_map answer_key <$> Q))%list).
Proof.
  revert score rs. induction Q as [|q Q IH]; intros score rs.
  - cbn. unfold count_correct. cbn. f_equal; [lia|]. by rewrite app_nil_r.
  - cbn [foldl]. rewrite grade_question_eq, IH. rewrite fmap_cons.
    rewrite <- app_assoc. cbn [app]. f_equal.
    unfold count_correct. rewrite filter_cons.
    destruct (schemas.QuestionResult.is_correct
                (question_result user_answers_map answer_key q)) eqn:E.
    + rewrite decide_True by done. cbn [length]. lia.
    + rewrite decide_False by done. lia.
Qed.

End grading_loop.

(** Running [calculate_score]: the value it returns and the memory it
    leaves. *)
Lemma calculate_score_run (m : crud.Mem) :
  crud.calculate_score m
  = let Q := crud.db m in
    let S := schemas.AnswerPayload.answers (crud.user_answers m) in
    let rs := question_result (crud.user_answers_map_of S)
                (crud.answer_key_of Q) <$> Q in
    (schemas.QuizResult.mk (count_correct rs) (Z.of_nat (length Q)) rs, m).
Proof.
  unfold crud.calculate_score, crud.get_questions, crud.gets.
  unfold mbind, crud.M_bind, mret, crud.M_ret.
  rewrite grading_loop_eq. rewrite Z.add_0_l, app_nil_l. reflexivity.
Qed.

Lemma grade_eq Q S :
  grade Q S
  = let rs := question_result (crud.user_answers_map_of S)
                (crud.answer_key_of Q) <$> Q in
    schemas.QuizResult.mk (count_correct rs) (Z.of_nat (length Q)) rs.
Proof. unfold grade. rewrite calculate_score_run. reflexivity. Qed.

Lemma grade_results Q S :
  schemas.QuizResult.results (grade Q S)
  = question_result (crud.user_answers_map_of S) (crud.answer_key_of Q) <$> Q.
Proof. rewrite grade_eq. reflexivity. Qed.

Lemma grade_result_at Q S i q r :
  Q !! i = Some q →
  schemas.QuizResult.results (grade Q S) !! i = Some r →
  r = question_result (crud.user_answers_map_of S) (crud.answer_key_of Q) q.
Proof.
  intros Hq. rewrite grade_results, list_lookup_fmap, Hq. cbn. congruence.
Qed.

(** ** The answer lookup *)

Section answer_lookup.

(** The step of the dict comprehension. *)
Local Abbreviation put :=
  (λ (d : gmap Z Z) answer,
     <[schemas.UserAnswer.question_id answer
       := schemas.UserAnswer.choice_id answer]> d).

(** Pairs about other questions leave the entry of [k] alone. *)
Lemma put_others_lookup (S : list schemas.UserAnswer.t) (d : gmap Z Z) k :
  Forall (λ b, schemas.UserAnswer.question_id b ≠ k) S →
  foldl put d S !! k = d !! k.
Proof.
  revert d. induction S as [|b S IH]; intros d HS; [done|].
  apply Forall_cons in HS as [Hb HS]. cbn [foldl].
  rewrite IH by done. by rewrite lookup_insert_ne.
Qed.

(** The entry of [k] after the comprehension does not depend on pairs the
    predicate [P] drops, as long as [P] keeps every pair about [k]. *)
Lemma put_filter_lookup (P : schemas.UserAnswer.t → Prop)
    `{!∀ a, Decision (P a)} (S : list schemas.UserAnswer.t)
    (d d' : gmap Z Z) k :
  (∀ a, schemas.UserAnswer.question_id a = k → P a) →
  d !! k = d' !! k →
  foldl put d (filter P S) !! k = foldl put d' S !! k.
Proof.
  intros HP. revert d d'. induction S as [|a S IH]; intros d d' Hd; [done|].
  rewrite filter_cons. cbn [foldl]. destruct (decide (P a)) as [Ha|Ha].
  - cbn [foldl]. apply IH. rewrite !lookup_insert. by case_decide.
  - apply IH. rewrite lookup_insert_ne; [done|]. intros Hk. by apply Ha, HP.
Qed.

Lemma user_answers_map_of_nil : crud.user_answers_map_of [] = ∅.
Proof. reflexivity. Qed.

End answer_lookup.

(** ** The answer key *)

Section answer_key.

Local Abbreviation key_step :=
  (λ (answer_key : gmap Z Z) question,
     match crud.first_correct_id (models.Question.choices question) with
     | Some cid => <[models.Question.id question := cid]> answer_key
     | None => answer_key
     end).

Lemma key_others_lookup (Q : list models.Question.t) (d : gmap Z Z) k :
  k ∉ (models.Question.id <$> Q) →
  foldl key_step d Q !! k = d !! k.
Proof.
  revert d. induction Q as [|q Q IH]; intros d Hk; [done|].
  rewrite fmap_cons in Hk. apply not_elem_of_cons in Hk as [Hq Hk].
  cbn [foldl]. rewrite IH by done.
  destruct (crud.first_correct_id _); [|done]. by rewrite lookup_insert_ne.
Qed.

Lemma key_own_lookup (Q : list models.Question.t) (d : gmap Z Z) q :
  unique_question_ids Q → q ∈ Q →
  foldl key_step d Q !! models.Question.id q
  = match crud.first_correct_id (models.Question.choices q) with
    | Some cid => Some cid
    | None => d !! models.Question.id q
    end.
Proof.
  unfold unique_question_ids. revert d.
  induction Q as [|q0 Q IH]; intros d Hnd Hq; [by apply elem_of_nil in Hq|].
  rewrite fmap_cons in Hnd. apply NoDup_cons in Hnd as [Hq0 Hnd].
  cbn [foldl]. apply elem_of_cons in Hq as [->|Hq].
  - rewrite key_others_lookup by done.
    destruct (crud.first_correct_id _); [|done]. by rewrite lookup_insert_eq.
  - rewrite IH by done.
    destruct (crud.first_correct_id (models.Question.choices q)); [done|].
    destruct (crud.first_correct_id _); [|done].
    rewrite lookup_insert_ne; [done|]. intros Heq. apply Hq0. rewrite Heq.
    by apply list_elem_of_fmap_2.
Qed.

(** With unique question identifiers the key of a question is decided by
    its own choices. *)
Lemma answer_key_of_lookup Q q :
  unique_question_ids Q → q ∈ Q →
  crud.answer_key_of Q !! models.Question.id q
  = crud.first_correct_id (models.Question.choices q).
Proof.
  intros Hnd Hq. unfold crud.answer_key_of. rewrite key_own_lookup by done.
  by destruct (crud.first_correct_id _).
Qed.

Lemma first_correct_id_Some choices cid :
  crud.first_correct_id choices = Some cid ↔
  ∃ c, first_correct_choice choices c ∧ models.Choice.id c = cid.
Proof.
  induction choices as [|c0 choices IH]; cbn.
  - split; [done|]. intros (c & (before & after & Heq & _) & _).
    by destruct before.
  - destruct (models.Choice.is_correct c0) eqn:E; split.
    + intros [= <-]. exists c0. split; [|done]. by exists [], choices.
    + intros (c & (before & after & Heq & Hb & Hc) & <-).
      destruct before as [|b before]; cbn in Heq.
      * by injection Heq as -> _.
      * injection Heq as -> _. apply Forall_cons in Hb as [Hb _]. congruence.
    + intros (c & (before & after & -> & Hb & Hc) & <-)%IH.
      exists c. split; [|done]. exists (c0 :: before), after.
      split_and!; [done| by constructor |done].
    + intros (c & (before & after & Heq & Hb & Hc) & <-). apply IH.
      destruct before as [|b before]; cbn in Heq.
      * injection Heq as -> _. congruence.
      * injection Heq as -> ->. apply Forall_cons in Hb as [_ Hb].
        exists c. split; [|done]. by exists before, after.
Qed.

Lemma first_correct_id_None choices :
  crud.first_correct_id choices = None ↔
  Forall (λ c, models.Choice.is_correct c = false) choices.
Proof.
  induction choices as [|c0 choices IH]; cbn; [by split|].
  destruct (models.Choice.is_correct c0) eqn:E; split.
  - done.
  - intros [? _]%Forall_cons. congruence.
  - intros ?%IH. by constructor.
  - intros [_ ?]%Forall_cons. by apply IH.
Qed.

End answer_key.

(** ** The two display texts *)

Section display_texts.

Lemma pick_text_no_match target init (choices : list models.Choice.t) :
  Forall (λ c, Some (models.Choice.id c) ≠ target) choices →
  pick_text target init choices = init.
Proof.
  revert init. induction choices as [|c0 choices IH]; intros init Hall; [done|].
  apply Forall_cons in Hall as [Hc0 Hall]. unfold pick_text. cbn [foldl].
  rewrite bool_decide_eq_false_2 by done. by apply IH.
Qed.

Lemma pick_text_None init choices : pick_text None init choices = init.
Proof. apply pick_text_no_match, Forall_forall. done. Qed.

(** When choice identifiers are unique the scan returns the text of the
    one choice that carries the id. *)
Lemma pick_text_match init (choices : list models.Choice.t) c :
  NoDup (models.Choice.id <$> choices) → c ∈ choices →
  pick_text (Some (models.Choice.id c)) init choices = models.Choice.text c.
Proof.
  revert init. induction choices as [|c0 choices IH]; intros init Hnd Hc;
    [by apply elem_of_nil in Hc|].
  rewrite fmap_cons in Hnd. apply NoDup_cons in Hnd as [Hc0 Hnd].
  unfold pick_text. cbn [foldl]. apply elem_of_cons in Hc as [->|Hc].
  - rewrite bool_decide_eq_true_2 by done.
    apply pick_text_no_match, Forall_forall. intros c' Hc' [= Heq].
    apply Hc0. rewrite <- Heq. by apply list_elem_of_fmap_2.
  - by apply IH.
Qed.

Lemma first_correct_choice_elem choices c :
  first_correct_choice choices c → c ∈ choices.
Proof. intros (before & after & -> & _). set_solver. Qed.

End display_texts.

(** ** Counting the results marked correct *)

Lemma count_correct_nonneg rs : 0 ≤ count_correct rs.
Proof. unfold count_correct. lia. Qed.

Lemma count_correct_cons r rs :
  count_correct (r :: rs)
  = (if schemas.QuestionResult.is_correct r then 1 else 0) + count_correct rs.
Proof.
  unfold count_correct. rewrite filter_cons.
  destruct (schemas.QuestionResult.is_correct r).
  - rewrite decide_True by done. cbn [length]. lia.
  - rewrite decide_False by done. lia.
Qed.

Lemma count_correct_app rs1 rs2 :
  count_correct (rs1 ++ rs2) = count_correct rs1 + count_correct rs2.
Proof.
  induction rs1 as [|r rs1 IH]; [done|].
  cbn [app]. rewrite !count_correct_cons, IH. lia.
Qed.

Lemma count_correct_le rs : count_correct rs ≤ Z.of_nat (length rs).
Proof.
  induction rs as [|r rs IH]; [done|].
  rewrite count_correct_cons. cbn [length].
  destruct (schemas.QuestionResult.is_correct r); lia.
Qed.

Lemma count_correct_all rs :
  count_correct rs = Z.of_nat (length rs)
  ↔ Forall (λ r, schemas.QuestionResult.is_correct r = true) rs.
Proof.
  induction rs as [|r rs IH]; [by split|].
  rewrite count_correct_cons, Forall_cons. cbn [length].
  pose proof (count_correct_le rs).
  destruct (schemas.QuestionResult.is_correct r); split.
  - intros ?. split; [done|]. apply IH. lia.
  - intros [_ ?%IH]. lia.
  - intros ?. lia.
  - by intros [? _].
Qed.

Lemma count_correct_none rs :
  count_correct rs = 0
  ↔ Forall (λ r, schemas.QuestionResult.is_correct r = false) rs.
Proof.
  induction rs as [|r rs IH]; [by split|].
  rewrite count_correct_cons, Forall_cons.
  pose proof (count_correct_nonneg rs).
  destruct (schemas.QuestionResult.is_correct r); split.
  - intros ?. lia.
  - by intros [? _].
  - intros ?. split; [done|]. apply IH. lia.
  - intros [_ ?%IH]. lia.
Qed.

(** ** Shape of the result *)

(** C1: the total is the number of questions, and the results are one per
    question, in the order of the question list: the i-th result carries the
    identifier and the text of the i-th question. *)
Theorem grade_total_and_results_order Q S :
  schemas.QuizResult.total (grade Q S) = Z.of_nat (length Q)
  ∧ length (schemas.QuizResult.results (grade Q S)) = length Q
  ∧ (λ r, (schemas.QuestionResult.question_id r,
           schemas.QuestionResult.question_text r))
      <$> schemas.QuizResult.results (grade Q S)
    = (λ q, (models.Question.id q, models.Question.text q)) <$> Q.
Proof.
  rewrite grade_eq. cbn. split_and!; [done|by rewrite length_fmap|].
  rewrite <- list_fmap_compose. by apply list_fmap_ext.
Qed.

Lemma grade_score_count Q S :
  schemas.QuizResult.score (grade Q S)
  = count_correct (schemas.QuizResult.results (grade Q S)).
Proof. rewrite grade_eq. reflexivity. Qed.

(** C2: the score lies between 0 and the number of questions. *)
Theorem grade_score_bounds Q S :
  0 ≤ schemas.QuizResult.score (grade Q S) ≤ Z.of_nat (length Q).
Proof.
  rewrite grade_eq. cbn. unfold count_correct.
  pose proof (length_filter (λ r, schemas.QuestionResult.is_correct r = true)
    (question_result (crud.user_answers_map_of S) (crud.answer_key_of Q) <$> Q))
    as Hle.
  rewrite length_fmap in Hle. lia.
Qed.

(** ** The empty submission *)

(** C5: with no submitted answer every result reads "Unanswered" and is
    marked incorrect, and the score is 0; on an empty question set the
    result is [{score: 0, total: 0, results: []}]. *)
Theorem grade_empty_submission Q :
  Forall (λ r, schemas.QuestionResult.user_answer_text r = "Unanswered"
               ∧ schemas.QuestionResult.is_correct r = false)
         (schemas.QuizResult.results (grade Q []))
  ∧ schemas.QuizResult.score (grade Q []) = 0
  ∧ grade [] [] = schemas.QuizResult.mk 0 0 [].
Proof.
  assert (Forall (λ r, schemas.QuestionResult.user_answer_text r = "Unanswered"
                       ∧ schemas.QuestionResult.is_correct r = false)
                 (schemas.QuizResult.results (grade Q []))) as Hall.
  { rewrite grade_results, Forall_fmap. apply Forall_forall. intros q _.
    unfold question_result, compose.
    rewrite user_answers_map_of_nil, lookup_empty. cbn.
    by rewrite pick_text_None. }
  split_and!; [done| |done].
  rewrite grade_score_count. unfold count_correct.
  induction Hall as [|r rs [_ Hr] _ IH]; [done|].
  rewrite filter_cons, decide_False by congruence. done.
Qed.

(** ** Purity *)

Section frame_runs.

Lemma key_body_run question choice (st : frame.t) :
  frame.key_body question choice st
  = if models.Choice.is_correct choice
    then (true, frame.set_answer_key
                  (<[models.Question.id question := models.Choice.id choice]>
                     (frame.answer_key st)) st)
    else (false, st).
Proof. unfold frame.key_body. by destruct (models.Choice.is_correct choice). Qed.

Lemma text_body_run u c choice (st : frame.t) :
  frame.text_body u c choice st
  = (tt, frame.set_user_answer_text
           (if bool_decide (Some (models.Choice.id choice) = u)
            then models.Choice.text choice else frame.user_answer_text st)
           (frame.set_correct_answer_text
              (if bool_decide (Some (models.Choice.id choice) = c)
               then models.Choice.text choice
               else frame.correct_answer_text st) st)).
Proof.
  unfold frame.text_body.
  destruct (bool_decide (Some (models.Choice.id choice) = u));
    destruct (bool_decide (Some (models.Choice.id choice) = c));
    by destruct st.
Qed.

Lemma for_break_key_body question choices (st : frame.t) :
  frame.for_break choices (frame.key_body question) st
  = (tt, match crud.first_correct_id choices with
         | Some cid =>
             frame.set_answer_key
               (<[models.Question.id question := cid]> (frame.answer_key st)) st
         | None => st
         end).
Proof.
  induction choices as [|choice choices IH]; [done|].
  cbn [frame.for_break crud.first_correct_id].
  unfold mbind at 1, frame.M_bind at 1. rewrite key_body_run.
  destruct (models.Choice.is_correct choice); [reflexivity|]. apply IH.
Qed.

(** The first loop leaves the answer key of [answer_key_of] and touches
    nothing else. *)
Lemma answer_key_loop Q (st : frame.t) :
  frame.for_each Q
    (λ question, frame.for_break (models.Question.choices question)
                   (frame.key_body question)) st
  = (tt, frame.set_answer_key
           (foldl (λ (answer_key : gmap Z Z) question,
                     match crud.first_correct_id (models.Question.choices question) with
                     | Some cid => <[models.Question.id question := cid]> answer_key
                     | None => answer_key
                     end)
                  (frame.answer_key st) Q) st).
Proof.
  revert st. induction Q as [|q Q IH]; intros st; [by destruct st|].
  cbn [frame.for_each foldl]. unfold mbind at 1, frame.M_bind at 1.
  rewrite for_break_key_body.
  destruct (crud.first_correct_id (models.Question.choices q)); by rewrite IH.
Qed.

Lemma text_loop u c choices (st : frame.t) :
  frame.for_each choices (frame.text_body u c) st
  = (tt, frame.set_user_answer_text
           (pick_text u (frame.user_answer_text st) choices)
           (frame.set_correct_answer_text
              (pick_text c (frame.correct_answer_text st) choices) st)).
Proof.
  revert st. induction choices as [|choice choices IH]; intros st;
    [by destruct st|].
  cbn [frame.for_each]. unfold mbind at 1, frame.M_bind at 1.
  rewrite text_body_run, IH. reflexivity.
Qed.

Lemma grade_body_run (user_answers_map : gmap Z Z) q (st : frame.t) :
  let r := question_result user_answers_map (frame.answer_key st) q in
  frame.grade_body user_answers_map q st
  = (tt, frame.mk (frame.db st) (frame.user_answers st)
           (if schemas.QuestionResult.is_correct r
            then frame.score st + 1 else frame.score st)
           (frame.answer_key st)
           (frame.detailed_results st ++ [r])
           (schemas.QuestionResult.user_answer_text r)
           (schemas.QuestionResult.correct_answer_text r)).
Proof.
  cbn zeta. unfold frame.grade_body, question_result.
  cbn [schemas.QuestionResult.is_correct schemas.QuestionResult.user_answer_text
       schemas.QuestionResult.correct_answer_text].
  unfold mbind, frame.M_bind, frame.read.
  destruct (bool_decide (user_answers_map !! models.Question.id q ≠ None)
            && bool_decide (user_answers_map !! models.Question.id q
                            = frame.answer_key st !! models.Question.id q));
    unfold frame.write, mret, frame.M_ret; by rewrite text_loop.
Qed.

(** The grading loop adds to [score] and [detailed_results] what the
    closed form says; the two scratch texts end with some value. *)
Lemma grade_loop (user_answers_map : gmap Z Z) Q (st : frame.t) :
  ∃ shown expected,
    frame.for_each Q (frame.grade_body user_answers_map) st
    = (tt, frame.mk (frame.db st) (frame.user_answers st)
             (frame.score st
              + count_correct
                  (question_result user_answers_map (frame.answer_key st) <$> Q))
             (frame.answer_key st)
             (frame.detailed_results st
              ++ (question_result user_answers_map (frame.answer_key st) <$> Q))
             shown expected).
Proof.
  revert st. induction Q as [|q Q IH]; intros st.
  - exists (frame.user_answer_text st), (frame.correct_answer_text st).
    cbn. unfold count_correct. cbn. rewrite Z.add_0_r, app_nil_r.
    by destruct st.
  - cbn [frame.for_each]. unfold mbind at 1, frame.M_bind at 1.
    rewrite grade_body_run.
    destruct (IH (frame.mk (frame.db st) (frame.user_answers st)
      (if schemas.QuestionResult.is_correct
            (question_result user_answers_map (frame.answer_key st) q)
       then frame.score st + 1 else frame.score st)
      (frame.answer_key st)
      (frame.detailed_results st
       ++ [question_result user_answers_map (frame.answer_key st) q])
      (schemas.QuestionResult.user_answer_text
         (question_result user_answers_map (frame.answer_key st) q))
      (schemas.QuestionResult.correct_answer_text
         (question_result user_answers_map (frame.answer_key st) q))))
      as (shown & expected & ->).
    exists shown, expected. cbn [frame.db frame.user_answers frame.score
      frame.answer_key frame.detailed_results].
    rewrite fmap_cons, count_correct_cons, <- app_assoc. cbn [app].
    do 2 f_equal.
    destruct (schemas.QuestionResult.is_correct _); lia.
Qed.

(** A run of the program: the value is [grade] of the stored questions and
    the submitted pairs, whatever the local variables held before; of the
    state only local variables have changed. *)
Lemma frame_calculate_score_run (st : frame.t) :
  ∃ final_score answer_key results shown expected,
    frame.calculate_score st
    = (grade (frame.db st)
         (schemas.AnswerPayload.answers (frame.user_answers st)),
       frame.mk (frame.db st) (frame.user_answers st)
         final_score answer_key results shown expected).
Proof.
  unfold frame.calculate_score.
  unfold mbind at 1 2 3 4 5, frame.M_bind at 1 2 3 4 5.
  unfold frame.write at 1 2, frame.read at 1 2.
  cbn [frame.set_score frame.set_answer_key frame.db frame.user_answers
       frame.score frame.answer_key frame.detailed_results
       frame.user_answer_text frame.correct_answer_text].
  rewrite answer_key_loop.
  unfold mbind at 1 2, frame.M_bind at 1 2, frame.write at 1.
  cbn [frame.set_score frame.set_answer_key frame.set_detailed_results
       frame.db frame.user_answers frame.score frame.answer_key
       frame.detailed_results frame.user_answer_text
       frame.correct_answer_text].
  match goal with
  | |- context [frame.for_each _ (frame.grade_body ?m) ?s] =>
      destruct (grade_loop m (frame.db st) s) as (shown & expected & Hloop)
  end.
  cbn [frame.db frame.user_answers frame.score frame.answer_key
       frame.detailed_results] in Hloop.
  rewrite Hloop. eexists _, _, _, _, _.
  unfold mbind, frame.M_bind, frame.read, mret, frame.M_ret.
  cbn [frame.score frame.detailed_results]. rewrite grade_eq.
  rewrite Z.add_0_l, app_nil_l. reflexivity.
Qed.

End frame_runs.

(** C7: a run of [calculate_score] changes only its own local variables:
    the stored questions and the submitted payload are afterwards what they
    were before.  Its result does not depend on what the local variables
    held when it started, so a second invocation, run in the state the first
    one left, returns the same result; the result is [grade] of the
    questions and the submitted pairs. *)
Theorem calculate_score_pure (st : frame.t) :
  frame.db (frame.calculate_score st).2 = frame.db st
  ∧ frame.user_answers (frame.calculate_score st).2 = frame.user_answers st
  ∧ (∀ score answer_key detailed_results user_answer_text correct_answer_text,
       (frame.calculate_score
          (frame.mk (frame.db st) (frame.user_answers st) score answer_key
             detailed_results user_answer_text correct_answer_text)).1
       = (frame.calculate_score st).1)
  ∧ (frame.calculate_score (frame.calculate_score st).2).1
    = (frame.calculate_score st).1
  ∧ (frame.calculate_score st).1
    = grade (frame.db st)
        (schemas.AnswerPayload.answers (frame.user_answers st)).
Proof.
  destruct (frame_calculate_score_run st) as (s1 & k1 & r1 & u1 & c1 & Hrun).
  rewrite Hrun. cbn [fst snd frame.db frame.user_answers].
  split_and!; [done|done| | |done].
  - intros s0 k0 r0 u0 c0.
    destruct (frame_calculate_score_run
                (frame.mk (frame.db st) (frame.user_answers st) s0 k0 r0 u0 c0))
      as (? & ? & ? & ? & ? & ->). done.
  - destruct (frame_calculate_score_run
                (frame.mk (frame.db st) (frame.user_answers st) s1 k1 r1 u1 c1))
      as (? & ? & ? & ? & ? & ->). done.
Qed.

(** ** Answers about unknown questions *)

(** C10: pairs whose question identifier names no question of [Q] do not
    influence the result. *)
Theorem grade_ignores_unknown_questions Q S :
  grade Q S = grade Q (relevant_answers Q S).
Proof.
  rewrite !grade_eq. cbn zeta.
  assert (question_result (crud.user_answers_map_of S) (crud.answer_key_of Q) <$> Q
          = question_result (crud.user_answers_map_of (relevant_answers Q S))
              (crud.answer_key_of Q) <$> Q) as ->; [|done].
  apply list_fmap_ext. intros i q Hq. unfold question_result.
  assert (crud.user_answers_map_of (relevant_answers Q S) !! models.Question.id q
          = crud.user_answers_map_of S !! models.Question.id q) as ->; [|done].
  unfold crud.user_answers_map_of, relevant_answers.
  apply put_filter_lookup; [|done].
  intros a ->. eapply list_elem_of_fmap_2, list_elem_of_lookup_2. done.
Qed.

(** ** Correctness of one answer *)

Lemma question_result_is_correct (user_answers_map answer_key : gmap Z Z) q :
  schemas.QuestionResult.is_correct
    (question_result user_answers_map answer_key q) = true
  ↔ ∃ cid, user_answers_map !! models.Question.id q = Some cid
           ∧ answer_key !! models.Question.id q = Some cid.
Proof.
  unfold question_result. cbn.
  rewrite andb_true_iff, !bool_decide_eq_true. split.
  - intros [Hu Heq]. destruct (user_answers_map !! _) as [cid|] eqn:E; [|done].
    by exists cid.
  - intros (cid & -> & ->). done.
Qed.

(** The dictionary of the comprehension holds, for every question id, the
    choice id of the last pair of the list that names it. *)
Lemma user_answers_map_of_last_submitted S question_id :
  crud.user_answers_map_of S !! question_id = last_submitted S question_id.
Proof.
  unfold last_submitted, crud.user_answers_map_of.
  induction S as [|a S IH] using rev_ind; [done|].
  rewrite foldl_snoc, filter_app, filter_cons, filter_nil, lookup_insert.
  destruct (decide (schemas.UserAnswer.question_id a = question_id)) as [Ha|Ha].
  - by rewrite last_snoc.
  - by rewrite app_nil_r.
Qed.

(** C3: the choice id submitted for a question is the one of the last pair
    of the submission that names the question.  When no pair names it, or
    when that id is not the id of one of the question's choices, the result
    reads "Unanswered" and is marked incorrect; a result is marked correct
    exactly when a choice id was submitted for the question and it is the id
    of the question's first choice flagged correct. *)
Theorem unmatched_answer_is_unanswered Q S i q r :
  unique_question_ids Q →
  Q !! i = Some q →
  schemas.QuizResult.results (grade Q S) !! i = Some r →
  ((last_submitted S (models.Question.id q) = None
    ∨ ∀ c, c ∈ models.Question.choices q →
           last_submitted S (models.Question.id q) ≠ Some (models.Choice.id c)) →
   schemas.QuestionResult.user_answer_text r = "Unanswered"
   ∧ schemas.QuestionResult.is_correct r = false)
  ∧ (schemas.QuestionResult.is_correct r = true
     ↔ ∃ c, first_correct_choice (models.Question.choices q) c
            ∧ last_submitted S (models.Question.id q)
              = Some (models.Choice.id c)).
Proof.
  intros Hnd Hq Hr. rewrite (grade_result_at Q S i q r Hq Hr).
  apply list_elem_of_lookup_2 in Hq.
  assert (schemas.QuestionResult.is_correct
            (question_result (crud.user_answers_map_of S) (crud.answer_key_of Q) q)
          = true
          ↔ ∃ c, first_correct_choice (models.Question.choices q) c
                 ∧ last_submitted S (models.Question.id q)
                   = Some (models.Choice.id c)) as Hiff.
  { rewrite question_result_is_correct, answer_key_of_lookup by done.
    rewrite user_answers_map_of_last_submitted. split.
    - intros (cid & Hu & (c & Hc & <-)%first_correct_id_Some). eauto.
    - intros (c & Hc & Hu). exists (models.Choice.id c). split; [done|].
      apply first_correct_id_Some. eauto. }
  split; [|done]. intros Hsub.
  assert (∀ c, c ∈ models.Question.choices q →
               Some (models.Choice.id c)
               ≠ last_submitted S (models.Question.id q)) as Hno.
  { intros c Hc Heq. destruct Hsub as [Hsub|Hsub]; [congruence|].
    by apply (Hsub c). }
  split.
  - unfold question_result. cbn. rewrite user_answers_map_of_last_submitted.
    by apply pick_text_no_match, Forall_forall.
  - apply not_true_is_false. rewrite Hiff. intros (c & Hc & Hu).
    apply (Hno c); [by eapply first_correct_choice_elem|done].
Qed.

Lemma unmatched_answer_is_unanswered_witness :
  (schemas.QuestionResult.user_answer_text
     (schemas.QuestionResult.mk 1 "Capital of France?" "Unanswered" "Paris" false)
   = "Unanswered"
   ∧ schemas.QuestionResult.is_correct
       (schemas.QuestionResult.mk 1 "Capital of France?" "Unanswered" "Paris" false)
     = false)
  ∧ ∃ c, first_correct_choice
           [models.Choice.mk 10 "Paris" true; models.Choice.mk 11 "Rome" false;
            models.Choice.mk 12 "Lutetia" true] c
         ∧ last_submitted demo_answers 1 = Some (models.Choice.id c).
Proof.
  split.
  - refine (proj1 (unmatched_answer_is_unanswered demo_questions
      [schemas.UserAnswer.mk 1 10; schemas.UserAnswer.mk 1 999] 0%nat
      (models.Question.mk 1 "Capital of France?"
         [models.Choice.mk 10 "Paris" true; models.Choice.mk 11 "Rome" false;
          models.Choice.mk 12 "Lutetia" true])
      (schemas.QuestionResult.mk 1 "Capital of France?" "Unanswered" "Paris" false)
      _ _ _) _).
    + apply (bool_decide_unpack _). vm_compute. exact I.
    + reflexivity.
    + reflexivity.
    + right. intros c Hc Heq. vm_compute in Heq.
      repeat (apply elem_of_cons in Hc as [->|Hc]); [discriminate..|].
      by apply elem_of_nil in Hc.
  - refine (proj1 (proj2 (unmatched_answer_is_unanswered demo_questions
      demo_answers 0%nat
      (models.Question.mk 1 "Capital of France?"
         [models.Choice.mk 10 "Paris" true; models.Choice.mk 11 "Rome" false;
          models.Choice.mk 12 "Lutetia" true])
      (schemas.QuestionResult.mk 1 "Capital of France?" "Paris" "Paris" true)
      _ _ _)) _).
    + apply (bool_decide_unpack _). vm_compute. exact I.
    + reflexivity.
    + reflexivity.
    + reflexivity.
Defined.

(** ** The canonical correct choice *)

(** C4: the correct choice of a question is its first choice, in stored
    order, flagged correct: that choice's id is the question's entry of the
    answer key and the id a submission must carry to be marked correct.  A
    question with no flagged choice has no entry, its result shows the empty
    string as correct answer and is marked incorrect whatever was submitted. *)
Theorem first_flagged_choice_is_canonical Q S i q r :
  unique_question_ids Q →
  Q !! i = Some q →
  schemas.QuizResult.results (grade Q S) !! i = Some r →
  (∀ c, first_correct_choice (models.Question.choices q) c →
        crud.answer_key_of Q !! models.Question.id q = Some (models.Choice.id c)
        ∧ (schemas.QuestionResult.is_correct r = true
           ↔ submitted_choice_id S q = Some (models.Choice.id c)))
  ∧ (Forall (λ c, models.Choice.is_correct c = false) (models.Question.choices q) →
     crud.answer_key_of Q !! models.Question.id q = None
     ∧ schemas.QuestionResult.correct_answer_text r = ""
     ∧ schemas.QuestionResult.is_correct r = false).
Proof.
  intros Hnd Hq Hr. rewrite (grade_result_at Q S i q r Hq Hr).
  apply list_elem_of_lookup_2 in Hq.
  pose proof (answer_key_of_lookup Q q Hnd Hq) as Hkey. split.
  - intros c Hc.
    assert (crud.first_correct_id (models.Question.choices q)
            = Some (models.Choice.id c)) as Hfirst
      by (apply first_correct_id_Some; eauto).
    rewrite Hfirst in Hkey. split; [done|].
    rewrite question_result_is_correct, Hkey.
    fold (submitted_choice_id S q). split.
    + by intros (cid & -> & [= ->]).
    + intros ->. eauto.
  - intros Hnone%first_correct_id_None. rewrite Hnone in Hkey.
    split_and!; [done| |].
    + unfold question_result. cbn. rewrite Hkey. apply pick_text_None.
    + apply not_true_is_false. rewrite question_result_is_correct, Hkey.
      by intros (cid & _ & ?).
Qed.

Lemma first_flagged_choice_is_canonical_witness :
  crud.answer_key_of demo_questions !! 1 = Some 10
  ∧ crud.answer_key_of demo_questions !! 2 = None.
Proof.
  split.
  - refine (proj1 (proj1 (first_flagged_choice_is_canonical demo_questions
      demo_answers 0%nat
      (models.Question.mk 1 "Capital of France?"
         [models.Choice.mk 10 "Paris" true; models.Choice.mk 11 "Rome" false;
          models.Choice.mk 12 "Lutetia" true])
      (schemas.QuestionResult.mk 1 "Capital of France?" "Paris" "Paris" true)
      _ _ _) (models.Choice.mk 10 "Paris" true) _)).
    + apply (bool_decide_unpack _). vm_compute. exact I.
    + reflexivity.
    + reflexivity.
    + exists [], [models.Choice.mk 11 "Rome" false;
                  models.Choice.mk 12 "Lutetia" true].
      split_and!; [reflexivity|constructor|reflexivity].
  - refine (proj1 (proj2 (first_flagged_choice_is_canonical demo_questions
      demo_answers 1%nat
      (models.Question.mk 2 "2 + 2?"
         [models.Choice.mk 20 "3" false; models.Choice.mk 21 "5" false])
      (schemas.QuestionResult.mk 2 "2 + 2?" "3" "" false)
      _ _ _) _)).
    + apply (bool_decide_unpack _). vm_compute. exact I.
    + reflexivity.
    + reflexivity.
    + repeat constructor.
Defined.

(** C9: in a result marked correct, the user's answer text and the correct
    answer text are both the text of the question's first choice flagged
    correct. *)
Theorem correct_result_shows_first_correct_text Q S i q r :
  unique_question_ids Q →
  unique_choice_ids q →
  Q !! i = Some q →
  schemas.QuizResult.results (grade Q S) !! i = Some r →
  schemas.QuestionResult.is_correct r = true →
  ∃ c, first_correct_choice (models.Question.choices q) c
       ∧ schemas.QuestionResult.user_answer_text r = models.Choice.text c
       ∧ schemas.QuestionResult.correct_answer_text r = models.Choice.text c.
Proof.
  intros Hnd Hcs Hq Hr. rewrite (grade_result_at Q S i q r Hq Hr).
  apply list_elem_of_lookup_2 in Hq.
  rewrite question_result_is_correct, answer_key_of_lookup by done.
  intros (cid & Hu & Hkey). pose proof Hkey as Hfirst.
  apply first_correct_id_Some in Hfirst as (c & Hc & <-).
  exists c. split; [done|]. unfold question_result. cbn.
  rewrite Hu, answer_key_of_lookup, Hkey by done.
  pose proof (first_correct_choice_elem _ _ Hc) as Hin.
  by rewrite !pick_text_match.
Qed.

Lemma correct_result_shows_first_correct_text_witness :
  ∃ c, first_correct_choice
         [models.Choice.mk 10 "Paris" true; models.Choice.mk 11 "Rome" false;
          models.Choice.mk 12 "Lutetia" true] c
       ∧ "Paris" = models.Choice.text c
       ∧ "Paris" = models.Choice.text c.
Proof.
  refine (correct_result_shows_first_correct_text demo_questions
    demo_answers 0%nat
    (models.Question.mk 1 "Capital of France?"
       [models.Choice.mk 10 "Paris" true; models.Choice.mk 11 "Rome" false;
        models.Choice.mk 12 "Lutetia" true])
    (schemas.QuestionResult.mk 1 "Capital of France?" "Paris" "Paris" true)
    _ _ _ _ _).
  - apply (bool_decide_unpack _). vm_compute. exact I.
  - apply (bool_decide_unpack _). vm_compute. exact I.
  - reflexivity.
  - reflexivity.
  - reflexivity.
Defined.

(** ** Duplicate question identifiers in a submission *)

Lemma user_answers_map_of_drop_earlier S1 a S2 :
  crud.user_answers_map_of (S1 ++ a :: S2)
  = crud.user_answers_map_of
      (filter (λ b, schemas.UserAnswer.question_id b
                    ≠ schemas.UserAnswer.question_id a) S1 ++ a :: S2).
Proof.
  unfold crud.user_answers_map_of. rewrite !foldl_app. cbn [foldl]. f_equal.
  apply map_eq. intros k. rewrite !lookup_insert. case_decide; [done|].
  symmetry. apply put_filter_lookup; [|done]. by intros b ->.
Qed.

(** C6: when a question identifier occurs several times in a submission,
    the answer lookup holds exactly one choice for it, the one of its last
    occurrence; grading is the same as if the earlier occurrences had not
    been submitted. *)
Theorem duplicate_answers_last_wins S1 a S2 :
  Forall (λ b, schemas.UserAnswer.question_id b
               ≠ schemas.UserAnswer.question_id a) S2 →
  (∀ cid, crud.user_answers_map_of (S1 ++ a :: S2)
            !! schemas.UserAnswer.question_id a = Some cid
          ↔ cid = schemas.UserAnswer.choice_id a)
  ∧ (∀ Q, grade Q (S1 ++ a :: S2)
          = grade Q (filter (λ b, schemas.UserAnswer.question_id b
                                  ≠ schemas.UserAnswer.question_id a) S1
                     ++ a :: S2)).
Proof.
  intros Hlast. split.
  - intros cid. unfold crud.user_answers_map_of.
    rewrite foldl_app. cbn [foldl]. rewrite put_others_lookup by done.
    rewrite lookup_insert_eq. split; congruence.
  - intros Q. by rewrite !grade_eq, <- user_answers_map_of_drop_earlier.
Qed.

Lemma duplicate_answers_last_wins_witness :
  crud.user_answers_map_of demo_answers !! 1 = Some 10.
Proof.
  apply (proj1 (duplicate_answers_last_wins
    [schemas.UserAnswer.mk 1 12; schemas.UserAnswer.mk 2 20]
    (schemas.UserAnswer.mk 1 10)
    [schemas.UserAnswer.mk 7 30] ltac:(repeat constructor; done))).
  reflexivity.
Defined.

(** ** The safe view *)

Lemma read_questions_run (m : crud.Mem) :
  main.read_questions m = (main.to_schema_question <$> crud.db m, m).
Proof. reflexivity. Qed.

Lemma to_schema_choices_eq (cs1 cs2 : list models.Choice.t) :
  main.to_schema_choice <$> cs1 = main.to_schema_choice <$> cs2
  ↔ Forall2 choice_same_but_flag cs1 cs2.
Proof.
  revert cs2. induction cs1 as [|c1 cs1 IH]; intros [|c2 cs2]; cbn.
  - split; [constructor|done].
  - split; [done|]. intros H. inversion H.
  - split; [done|]. intros H. inversion H.
  - split.
    + intros [= Ht Hi Hrest]. constructor; [done|]. by apply IH.
    + intros H. inversion H as [|? ? ? ? [Hi Ht] Hrest]; subst.
      unfold main.to_schema_choice at 1 3. rewrite Hi, Ht. f_equal.
      by apply IH.
Qed.

(** C8: the safe view of a question set is decided by the identifiers and
    texts of the questions and of their choices, and by nothing else: two
    question sets have the same safe view exactly when they differ at most
    in [is_correct] flags. *)
Theorem safe_view_hides_is_correct Q1 Q2 :
  safe_view Q1 = safe_view Q2 ↔ Forall2 question_same_but_flags Q1 Q2.
Proof.
  unfold safe_view. rewrite !read_questions_run. cbn [fst crud.db].
  revert Q2. induction Q1 as [|q1 Q1 IH]; intros [|q2 Q2]; cbn.
  - split; [constructor|done].
  - split; [done|]. intros H. inversion H.
  - split; [done|]. intros H. inversion H.
  - split.
    + intros [= Ht Hi Hcs Hrest]. constructor; [|by apply IH].
      split_and!; [done..|]. by apply to_schema_choices_eq.
    + intros H. inversion H as [|? ? ? ? (Hi & Ht & Hcs) Hrest]; subst.
      unfold main.to_schema_question at 1 3. rewrite Hi, Ht.
      apply to_schema_choices_eq in Hcs. rewrite Hcs. f_equal. by apply IH.
Qed.

(** ** Why identifiers are assumed unique *)

(** Two questions sharing an identifier share one entry of the answer key:
    the first question below has no flagged choice, yet its result is marked
    correct with the texts left at their defaults. *)
Example shared_question_id_shares_key :
  schemas.QuizResult.results
    (grade [models.Question.mk 1 "a" [models.Choice.mk 10 "x" false];
            models.Question.mk 1 "b" [models.Choice.mk 20 "y" true]]
           [schemas.UserAnswer.mk 1 20])
  = [schemas.QuestionResult.mk 1 "a" "Unanswered" "" true;
     schemas.QuestionResult.mk 1 "b" "y" "y" true].
Proof. vm_compute. reflexivity. Qed.

(** Two choices of a question sharing an identifier: the scan keeps the
    text of the later one. *)
Example shared_choice_id_last_text :
  schemas.QuizResult.results
    (grade [models.Question.mk 1 "a"
              [models.Choice.mk 10 "x" true; models.Choice.mk 10 "y" false]]
           [schemas.UserAnswer.mk 1 10])
  = [schemas.QuestionResult.mk 1 "a" "y" "y" true].
Proof. vm_compute. reflexivity. Qed.

(** * Further properties of the grader *)

(** ** The score as a count *)

(** X1: the score is the number of results marked correct. *)
Theorem score_counts_correct_results Q S :
  schemas.QuizResult.score (grade Q S)
  = Z.of_nat (length (filter (λ r, schemas.QuestionResult.is_correct r = true)
                        (schemas.QuizResult.results (grade Q S)))).
Proof. rewrite grade_eq. reflexivity. Qed.

(** X2: the score equals the total exactly when every result is marked
    correct, and it is 0 exactly when none is. *)
Theorem perfect_and_zero_score Q S :
  (schemas.QuizResult.score (grade Q S) = schemas.QuizResult.total (grade Q S)
   ↔ Forall (λ r, schemas.QuestionResult.is_correct r = true)
            (schemas.QuizResult.results (grade Q S)))
  ∧ (schemas.QuizResult.score (grade Q S) = 0
     ↔ Forall (λ r, schemas.QuestionResult.is_correct r = false)
              (schemas.QuizResult.results (grade Q S))).
Proof.
  rewrite grade_eq. cbn. split.
  - rewrite <- count_correct_all. by rewrite length_fmap.
  - apply count_correct_none.
Qed.

(** ** The texts of an answered question *)

(** X3: when the choice id submitted for a question is the id of one of its
    choices, and the question's choice ids are distinct, the result shows
    the text of that choice. *)
Theorem answered_choice_text_is_shown Q S i q r c :
  unique_choice_ids q →
  Q !! i = Some q →
  schemas.QuizResult.results (grade Q S) !! i = Some r →
  c ∈ models.Question.choices q →
  submitted_choice_id S q = Some (models.Choice.id c) →
  schemas.QuestionResult.user_answer_text r = models.Choice.text c.
Proof.
  intros Hcs Hq Hr Hc Hsub. rewrite (grade_result_at Q S i q r Hq Hr).
  unfold question_result. cbn. unfold submitted_choice_id in Hsub.
  rewrite Hsub. by apply pick_text_match.
Qed.

Lemma answered_choice_text_is_shown_witness :
  schemas.QuestionResult.user_answer_text
    (schemas.QuestionResult.mk 2 "2 + 2?" "3" "" false) = "3".
Proof.
  refine (answered_choice_text_is_shown demo_questions demo_answers 1%nat
    (models.Question.mk 2 "2 + 2?"
       [models.Choice.mk 20 "3" false; models.Choice.mk 21 "5" false])
    (schemas.QuestionResult.mk 2 "2 + 2?" "3" "" false)
    (models.Choice.mk 20 "3" false) _ _ _ _ _).
  - apply (bool_decide_unpack _). vm_compute. exact I.
  - reflexivity.
  - reflexivity.
  - set_solver.
  - reflexivity.
Defined.

(** X4: with distinct identifiers, the correct-answer text of a result is
    the text of the question's first flagged choice, whatever was
    submitted. *)
Theorem correct_answer_text_is_first_flagged Q S i q r c :
  unique_question_ids Q →
  unique_choice_ids q →
  Q !! i = Some q →
  schemas.QuizResult.results (grade Q S) !! i = Some r →
  first_correct_choice (models.Question.choices q) c →
  schemas.QuestionResult.correct_answer_text r = models.Choice.text c.
Proof.
  intros Hnd Hcs Hq Hr Hc. rewrite (grade_result_at Q S i q r Hq Hr).
  apply list_elem_of_lookup_2 in Hq.
  unfold question_result. cbn. rewrite answer_key_of_lookup by done.
  assert (crud.first_correct_id (models.Question.choices q)
          = Some (models.Choice.id c)) as ->
    by (apply first_correct_id_Some; eauto).
  apply pick_text_match; [done|]. by eapply first_correct_choice_elem.
Qed.

Lemma correct_answer_text_is_first_flagged_witness :
  schemas.QuestionResult.correct_answer_text
    (schemas.QuestionResult.mk 3 "Is water wet?" "Unanswered" "Yes" false)
  = "Yes".
Proof.
  refine (correct_answer_text_is_first_flagged demo_questions demo_answers
    2%nat
    (models.Question.mk 3 "Is water wet?" [models.Choice.mk 30 "Yes" true])
    (schemas.QuestionResult.mk 3 "Is water wet?" "Unanswered" "Yes" false)
    (models.Choice.mk 30 "Yes" true) _ _ _ _ _).
  - apply (bool_decide_unpack _). vm_compute. exact I.
  - apply (bool_decide_unpack _). vm_compute. exact I.
  - reflexivity.
  - reflexivity.
  - exists [], []. split_and!; [reflexivity|constructor|reflexivity].
Defined.

(** ** The best attainable score *)

Lemma user_answers_map_of_key_answers Q :
  crud.user_answers_map_of (key_answers Q) = crud.answer_key_of Q.
Proof.
  unfold crud.user_answers_map_of, crud.answer_key_of, key_answers.
  generalize (∅ : gmap Z Z). induction Q as [|q Q IH]; intros d; [done|].
  cbn [omap list_omap foldl].
  destruct (crud.first_correct_id (models.Question.choices q)); cbn; apply IH.
Qed.

(** A result marked correct needs an entry of the answer key. *)
Lemma count_correct_le_keyed (user_answers_map answer_key : gmap Z Z) Q :
  count_correct (question_result user_answers_map answer_key <$> Q)
  ≤ count_correct (question_result answer_key answer_key <$> Q).
Proof.
  induction Q as [|q Q IH]; [done|].
  rewrite !fmap_cons, !count_correct_cons.
  destruct (schemas.QuestionResult.is_correct
              (question_result user_answers_map answer_key q)) eqn:E.
  - apply question_result_is_correct in E as (cid & _ & Hkey).
    assert (schemas.QuestionResult.is_correct
              (question_result answer_key answer_key q) = true) as ->
      by (apply question_result_is_correct; eauto).
    lia.
  - destruct (schemas.QuestionResult.is_correct
                (question_result answer_key answer_key q)); lia.
Qed.

(** X5: no submission scores more than the one that answers every question
    with its entry of the answer key. *)
Theorem key_answers_score_is_maximal Q S :
  schemas.QuizResult.score (grade Q S)
  ≤ schemas.QuizResult.score (grade Q (key_answers Q)).
Proof.
  rewrite !grade_eq. cbn. rewrite user_answers_map_of_key_answers.
  apply count_correct_le_keyed.
Qed.

Lemma count_correct_key_answers Q L :
  unique_question_ids Q → L ⊆ Q →
  count_correct (question_result (crud.answer_key_of Q) (crud.answer_key_of Q) <$> L)
  = Z.of_nat (length (filter has_flagged_choice L)).
Proof.
  intros Hnd. induction L as [|q L IH]; intros HL; [done|].
  rewrite fmap_cons, count_correct_cons, filter_cons.
  rewrite IH by set_solver.
  assert (q ∈ Q) as Hq by set_solver.
  destruct (schemas.QuestionResult.is_correct _) eqn:E.
  - apply question_result_is_correct in E as (cid & Hkey & _).
    rewrite answer_key_of_lookup in Hkey by done.
    rewrite decide_True by (unfold has_flagged_choice; congruence).
    cbn [length]. lia.
  - rewrite decide_False; [lia|]. unfold has_flagged_choice. intros Hflag.
    destruct (crud.first_correct_id (models.Question.choices q)) as [cid|] eqn:F;
      [|done].
    apply not_true_iff_false in E. apply E, question_result_is_correct.
    exists cid. by rewrite answer_key_of_lookup.
Qed.

(** X6: with distinct question identifiers, answering every question with
    its first flagged choice marks correct exactly the questions that have a
    flagged choice: the score is their number, and it is the total when
    every question has one. *)
Theorem key_answers_score Q :
  unique_question_ids Q →
  schemas.QuizResult.score (grade Q (key_answers Q))
  = Z.of_nat (length (filter has_flagged_choice Q))
  ∧ (Forall has_flagged_choice Q →
     schemas.QuizResult.score (grade Q (key_answers Q))
     = schemas.QuizResult.total (grade Q (key_answers Q))).
Proof.
  intros Hnd.
  assert (schemas.QuizResult.score (grade Q (key_answers Q))
          = Z.of_nat (length (filter has_flagged_choice Q))) as Hscore.
  { rewrite grade_eq. cbn. rewrite user_answers_map_of_key_answers.
    by apply count_correct_key_answers. }
  split; [done|]. intros Hall. rewrite Hscore, grade_eq. cbn.
  f_equal. clear Hscore Hnd.
  induction Hall as [|q Q Hq _ IH]; [done|].
  rewrite filter_cons, decide_True by done. cbn [length]. congruence.
Qed.

Lemma key_answers_score_witness :
  schemas.QuizResult.score (grade demo_questions (key_answers demo_questions))
  = 2.
Proof.
  refine (proj1 (key_answers_score demo_questions _)).
  apply (bool_decide_unpack _). vm_compute. exact I.
Defined.

(** ** Order and locality of the submitted pairs *)

Section submission_order.

Local Abbreviation put :=
  (λ (d : gmap Z Z) answer,
     <[schemas.UserAnswer.question_id answer
       := schemas.UserAnswer.choice_id answer]> d).

(** Every entry of the lookup comes from a submitted pair. *)
Lemma put_lookup_Some (S : list schemas.UserAnswer.t) (d : gmap Z Z) k v :
  foldl put d S !! k = Some v →
  d !! k = Some v
  ∨ ∃ a, a ∈ S ∧ schemas.UserAnswer.question_id a = k
         ∧ schemas.UserAnswer.choice_id a = v.
Proof.
  revert d. induction S as [|b S IH]; intros d Hk; [by left|].
  cbn [foldl] in Hk. apply IH in Hk as [Hk|(a & Ha & Hq & Hc)].
  - rewrite lookup_insert in Hk. case_decide as Hb; [|by left].
    right. exists b. split_and!; [set_solver|done|congruence].
  - right. exists a. split_and!; [set_solver|done..].
Qed.

(** When no question is answered twice the lookup holds exactly the
    submitted pairs. *)
Lemma user_answers_map_of_lookup_NoDup S k v :
  NoDup (schemas.UserAnswer.question_id <$> S) →
  crud.user_answers_map_of S !! k = Some v
  ↔ ∃ a, a ∈ S ∧ schemas.UserAnswer.question_id a = k
         ∧ schemas.UserAnswer.choice_id a = v.
Proof.
  intros Hnd. split.
  - intros [Hk|Hk]%put_lookup_Some; [by rewrite lookup_empty in Hk|done].
  - intros (a & Ha & <- & <-).
    apply list_elem_of_split in Ha as (S1 & S2 & ->).
    unfold crud.user_answers_map_of. rewrite foldl_app. cbn [foldl].
    rewrite put_others_lookup; [by rewrite lookup_insert_eq|].
    rewrite fmap_app, fmap_cons in Hnd.
    apply NoDup_app in Hnd as (_ & _ & [Ha _]%NoDup_cons).
    apply Forall_forall. intros b Hb Heq. apply Ha. rewrite <- Heq.
    by apply list_elem_of_fmap_2.
Qed.

End submission_order.

(** X7: when no question identifier occurs twice in a submission, the
    order of its pairs does not matter. *)
Theorem grade_submission_order_irrelevant Q S S' :
  NoDup (schemas.UserAnswer.question_id <$> S) →
  S ≡ₚ S' →
  grade Q S = grade Q S'.
Proof.
  intros Hnd Hperm. rewrite !grade_eq.
  assert (crud.user_answers_map_of S = crud.user_answers_map_of S') as ->;
    [|done].
  assert (NoDup (schemas.UserAnswer.question_id <$> S')) as Hnd'
    by (by rewrite <- Hperm).
  apply map_eq. intros k. apply option_eq. intros v.
  rewrite !user_answers_map_of_lookup_NoDup by done.
  by setoid_rewrite Hperm.
Qed.

Lemma grade_submission_order_irrelevant_witness :
  grade demo_questions [schemas.UserAnswer.mk 1 10; schemas.UserAnswer.mk 2 20]
  = grade demo_questions [schemas.UserAnswer.mk 2 20; schemas.UserAnswer.mk 1 10].
Proof.
  apply grade_submission_order_irrelevant.
  - apply (bool_decide_unpack _). vm_compute. exact I.
  - apply perm_swap.
Defined.

(** X8: a pair added at the end of a submission changes no result other
    than those of the questions carrying its question identifier. *)
Theorem added_answer_is_local Q S a i q :
  Q !! i = Some q →
  models.Question.id q ≠ schemas.UserAnswer.question_id a →
  schemas.QuizResult.results (grade Q (S ++ [a])) !! i
  = schemas.QuizResult.results (grade Q S) !! i.
Proof.
  intros Hq Hne. rewrite !grade_results, !list_lookup_fmap, Hq. cbn.
  f_equal. unfold question_result, crud.user_answers_map_of.
  rewrite foldl_snoc, lookup_insert_ne by done. reflexivity.
Qed.

Lemma added_answer_is_local_witness :
  schemas.QuizResult.results
    (grade demo_questions (demo_answers ++ [schemas.UserAnswer.mk 3 30])) !! 1%nat
  = schemas.QuizResult.results (grade demo_questions demo_answers) !! 1%nat.
Proof.
  refine (added_answer_is_local demo_questions demo_answers
    (schemas.UserAnswer.mk 3 30) 1%nat
    (models.Question.mk 2 "2 + 2?"
       [models.Choice.mk 20 "3" false; models.Choice.mk 21 "5" false]) _ _).
  - reflexivity.
  - cbn. lia.
Defined.

(** ** Question sets put together *)

Lemma question_result_key_ext (user_answers_map answer_key answer_key' : gmap Z Z) q :
  answer_key !! models.Question.id q = answer_key' !! models.Question.id q →
  question_result user_answers_map answer_key q
  = question_result user_answers_map answer_key' q.
Proof. intros Heq. unfold question_result. by rewrite Heq. Qed.

(** With distinct question identifiers, the results of the questions of a
    part [L] of [Q] are the same graded within [Q] and graded on their own. *)
Lemma results_of_part (user_answers_map : gmap Z Z) Q L :
  unique_question_ids Q → unique_question_ids L → L ⊆ Q →
  question_result user_answers_map (crud.answer_key_of Q) <$> L
  = question_result user_answers_map (crud.answer_key_of L) <$> L.
Proof.
  intros HQ HL Hsub. apply list_fmap_ext. intros i q Hq.
  apply list_elem_of_lookup_2 in Hq. apply question_result_key_ext.
  rewrite !answer_key_of_lookup by set_solver. done.
Qed.

(** X9: grading a question list made of two parts, with distinct question
    identifiers overall, is grading each part: the results are the two lists
    of results one after the other, and the scores and totals add up. *)
Theorem grade_app Q1 Q2 S :
  unique_question_ids (Q1 ++ Q2) →
  schemas.QuizResult.results (grade (Q1 ++ Q2) S)
  = schemas.QuizResult.results (grade Q1 S)
    ++ schemas.QuizResult.results (grade Q2 S)
  ∧ schemas.QuizResult.score (grade (Q1 ++ Q2) S)
    = schemas.QuizResult.score (grade Q1 S)
      + schemas.QuizResult.score (grade Q2 S)
  ∧ schemas.QuizResult.total (grade (Q1 ++ Q2) S)
    = schemas.QuizResult.total (grade Q1 S)
      + schemas.QuizResult.total (grade Q2 S).
Proof.
  intros Hnd. pose proof Hnd as Hparts. unfold unique_question_ids in Hparts.
  rewrite fmap_app in Hparts. apply NoDup_app in Hparts as (H1 & _ & H2).
  rewrite !grade_eq. cbn. rewrite fmap_app.
  rewrite (results_of_part _ (Q1 ++ Q2) Q1), (results_of_part _ (Q1 ++ Q2) Q2)
    by (done || set_solver).
  split_and!; [done|apply count_correct_app|].
  rewrite length_app. lia.
Qed.

Lemma grade_app_witness :
  schemas.QuizResult.score (grade demo_questions demo_answers)
  = schemas.QuizResult.score (grade (take 1 demo_questions) demo_answers)
    + schemas.QuizResult.score (grade (drop 1 demo_questions) demo_answers).
Proof.
  refine (proj1 (proj2 (grade_app (take 1 demo_questions)
    (drop 1 demo_questions) demo_answers _))).
  apply (bool_decide_unpack _). vm_compute. exact I.
Defined.

Lemma count_correct_Permutation rs rs' :
  rs ≡ₚ rs' → count_correct rs = count_correct rs'.
Proof. intros Hperm. unfold count_correct. by rewrite Hperm. Qed.

(** X10: with distinct question identifiers, retrieving the questions in
    another order yields the same results in that order (so the same
    results up to order) and the same score. *)
Theorem grade_question_order Q Q' S :
  unique_question_ids Q →
  Q ≡ₚ Q' →
  schemas.QuizResult.results (grade Q' S)
  = question_result (crud.user_answers_map_of S) (crud.answer_key_of Q) <$> Q'
  ∧ schemas.QuizResult.results (grade Q S)
    ≡ₚ schemas.QuizResult.results (grade Q' S)
  ∧ schemas.QuizResult.score (grade Q S)
    = schemas.QuizResult.score (grade Q' S).
Proof.
  intros Hnd Hperm.
  assert (unique_question_ids Q') as Hnd'
    by (unfold unique_question_ids; by rewrite <- Hperm).
  assert (question_result (crud.user_answers_map_of S) (crud.answer_key_of Q') <$> Q'
          = question_result (crud.user_answers_map_of S) (crud.answer_key_of Q) <$> Q')
    as Heq.
  { apply list_fmap_ext. intros i q Hq. apply list_elem_of_lookup_2 in Hq.
    assert (q ∈ Q) as Hq' by (by rewrite Hperm).
    apply question_result_key_ext. by rewrite !answer_key_of_lookup by done. }
  rewrite !grade_eq. cbn. rewrite Heq. split_and!; [done| |].
  - by apply fmap_Permutation.
  - by apply count_correct_Permutation, fmap_Permutation.
Qed.

Lemma grade_question_order_witness :
  schemas.QuizResult.score (grade demo_questions demo_answers)
  = schemas.QuizResult.score (grade (reverse demo_questions) demo_answers).
Proof.
  refine (proj2 (proj2 (grade_question_order demo_questions
    (reverse demo_questions) demo_answers _ _))).
  - apply (bool_decide_unpack _). vm_compute. exact I.
  - symmetry. apply reverse_Permutation.
Defined.

(** ** Flags after the first *)

Lemma keep_first_flag_first_correct_id choices :
  crud.first_correct_id (keep_first_flag choices)
  = crud.first_correct_id choices.
Proof.
  induction choices as [|c choices IH]; [done|]. cbn.
  destruct (models.Choice.is_correct c) eqn:E; cbn; by rewrite E.
Qed.

Lemma pick_text_ext target init (cs cs' : list models.Choice.t) :
  (λ c, (models.Choice.id c, models.Choice.text c)) <$> cs
  = (λ c, (models.Choice.id c, models.Choice.text c)) <$> cs' →
  pick_text target init cs = pick_text target init cs'.
Proof.
  revert init cs'. induction cs as [|c cs IH]; intros init [|c' cs'] Heq;
    try done.
  rewrite !fmap_cons in Heq. injection Heq as Hi Ht Hrest.
  unfold pick_text. cbn [foldl]. rewrite Hi, Ht. by apply IH.
Qed.

Lemma keep_first_flag_ids_texts choices :
  (λ c, (models.Choice.id c, models.Choice.text c)) <$> keep_first_flag choices
  = (λ c, (models.Choice.id c, models.Choice.text c)) <$> choices.
Proof.
  induction choices as [|c choices IH]; [done|]. cbn.
  destruct (models.Choice.is_correct c); cbn; f_equal; [|done].
  rewrite <- list_fmap_compose. by apply list_fmap_ext.
Qed.

Lemma answer_key_of_single_flag Q :
  crud.answer_key_of (single_flag <$> Q) = crud.answer_key_of Q.
Proof.
  unfold crud.answer_key_of. generalize (∅ : gmap Z Z).
  induction Q as [|q Q IH]; intros d; [done|].
  rewrite fmap_cons. cbn [foldl]. rewrite IH. cbn.
  by rewrite keep_first_flag_first_correct_id.
Qed.

(** X11: only the first flagged choice of each question matters: clearing
    every later flag changes nothing in the grading of any submission. *)
Theorem grade_single_flag Q S :
  grade (single_flag <$> Q) S = grade Q S.
Proof.
  rewrite !grade_eq. cbn zeta. rewrite answer_key_of_single_flag, length_fmap.
  assert (question_result (crud.user_answers_map_of S) (crud.answer_key_of Q)
            <$> (single_flag <$> Q)
          = question_result (crud.user_answers_map_of S) (crud.answer_key_of Q)
            <$> Q) as ->; [|done].
  rewrite <- list_fmap_compose. apply list_fmap_ext. intros i q _.
  unfold compose, question_result, single_flag.
  cbn [models.Question.id models.Question.text models.Question.choices].
  by rewrite !(pick_text_ext _ _ _ _ (keep_first_flag_ids_texts _)).
Qed.

(** ** The two endpoints together *)

Lemma submit_quiz_run (m : crud.Mem) :
  endpoints.submit_quiz m
  = (inr (grade (crud.db m)
            (schemas.AnswerPayload.answers (crud.user_answers m))), m).
Proof.
  unfold endpoints.submit_quiz, mbind, crud.M_bind, mret, crud.M_ret.
  rewrite calculate_score_run. cbn zeta. by rewrite grade_eq.
Qed.

(** X12: a client reads question [sq] at position [i] of [/questions/],
    sees distinct choice ids in it, and submits for it the id of the choice
    [sc] it was shown.  Then [/submit/] answers with a result (not an error)
    whose entry at position [i] names that question and echoes the text of
    [sc] as the user's answer. *)
Theorem picked_choice_is_echoed (m : crud.Mem) i sq sc :
  (main.read_questions m).1 !! i = Some sq →
  NoDup (schemas.Choice.id <$> schemas.Question.choices sq) →
  sc ∈ schemas.Question.choices sq →
  crud.user_answers_map_of (schemas.AnswerPayload.answers (crud.user_answers m))
    !! schemas.Question.id sq = Some (schemas.Choice.id sc) →
  ∃ res r,
    (endpoints.submit_quiz m).1 = inr res
    ∧ schemas.QuizResult.results res !! i = Some r
    ∧ schemas.QuestionResult.question_id r = schemas.Question.id sq
    ∧ schemas.QuestionResult.question_text r = schemas.Question.text sq
    ∧ schemas.QuestionResult.user_answer_text r = schemas.Choice.text sc.
Proof.
  rewrite read_questions_run, submit_quiz_run. cbn [fst].
  rewrite list_lookup_fmap. destruct (crud.db m !! i) as [q|] eqn:Hq; [|done].
  intros [= <-]. cbn. intros Hnd (c & -> & Hc)%list_elem_of_fmap Hsub.
  rewrite <- list_fmap_compose in Hnd.
  eexists _, _. split; [done|]. rewrite grade_results, list_lookup_fmap, Hq.
  split; [done|]. cbn. split_and!; [done..|].
  rewrite Hsub. by apply pick_text_match.
Qed.

Lemma picked_choice_is_echoed_witness :
  ∃ res r,
    (endpoints.submit_quiz
       (crud.mkMem demo_questions (schemas.AnswerPayload.mk demo_answers))).1
    = inr res
    ∧ schemas.QuizResult.results res !! 1%nat = Some r
    ∧ schemas.QuestionResult.question_id r = 2
    ∧ schemas.QuestionResult.question_text r = "2 + 2?"
    ∧ schemas.QuestionResult.user_answer_text r = "3".
Proof.
  refine (picked_choice_is_echoed
    (crud.mkMem demo_questions (schemas.AnswerPayload.mk demo_answers)) 1%nat
    (schemas.Question.mk "2 + 2?" 2
       [schemas.Choice.mk "3" 20; schemas.Choice.mk "5" 21])
    (schemas.Choice.mk "3" 20) _ _ _ _).
  - reflexivity.
  - apply (bool_decide_unpack _). vm_compute. exact I.
  - set_solver.
  - reflexivity.
Defined.

(** ** Snapshots read from the tables *)

(** Two rows of a table with distinct primary keys that carry the same key
    are the same row. *)
Lemma choice_row_by_key (db : store.t) r1 r2 :
  NoDup (store.ChoiceRow.id <$> store.choices db) →
  r1 ∈ store.choices db → r2 ∈ store.choices db →
  store.ChoiceRow.id r1 = store.ChoiceRow.id r2 → r1 = r2.
Proof.
  intros Hnd H1 H2 Heq. induction (store.choices db) as [|r rows IH];
    [by apply elem_of_nil in H1|].
  rewrite fmap_cons in Hnd. apply NoDup_cons in Hnd as [Hr Hnd].
  apply elem_of_cons in H1 as [->|H1]; apply elem_of_cons in H2 as [->|H2].
  - done.
  - exfalso. apply Hr. rewrite Heq. by apply list_elem_of_fmap_2.
  - exfalso. apply Hr. rewrite <- Heq. by apply list_elem_of_fmap_2.
  - by apply IH.
Qed.

Lemma next_id_fresh used : next_id used ∉ used.
Proof.
  assert (∀ x, x ∈ used → x < next_id used) as Hlt.
  { unfold next_id. induction used as [|y used IH]; intros x Hx;
      [by apply elem_of_nil in Hx|].
    cbn [foldr]. apply elem_of_cons in Hx as [->|Hx]; [lia|].
    specialize (IH x Hx). lia. }
  intros Hin. specialize (Hlt _ Hin). lia.
Qed.

Lemma filter_all {A} (P : A → Prop) `{!∀ x, Decision (P x)} (l : list A) :
  Forall P l → filter P l = l.
Proof.
  induction 1 as [|x l Hx _ IH]; [done|].
  by rewrite filter_cons, decide_True, IH by done.
Qed.

Lemma filter_none {A} (P : A → Prop) `{!∀ x, Decision (P x)} (l : list A) :
  Forall (λ x, ¬ P x) l → filter P l = [].
Proof.
  induction 1 as [|x l Hx _ IH]; [done|].
  by rewrite filter_cons, decide_False, IH by done.
Qed.

Lemma has_flagged_choice_data q :
  has_flagged_choice q
  ↔ Exists (λ c : string * bool, c.2 = true) (data_of_question q).2.
Proof.
  unfold has_flagged_choice, data_of_question. cbn [snd].
  induction (models.Question.choices q) as [|c cs IH]; cbn.
  - split; [done|]. intros H. inversion H.
  - rewrite Exists_cons. cbn. destruct (models.Choice.is_correct c).
    + split; [by left|done].
    + rewrite IH. split; [by right|]. by intros [?|?].
Qed.

Section snapshots.

Context (row_order : list store.ChoiceRow.t → list store.ChoiceRow.t).
Context (row_order_perm : ∀ rows, row_order rows ≡ₚ rows).

Lemma choices_of_ids (db : store.t) qid :
  models.Choice.id <$> store.choices_of row_order db qid
  ≡ₚ store.ChoiceRow.id
     <$> filter (λ r, store.ChoiceRow.question_id r = qid) (store.choices db).
Proof.
  unfold store.choices_of. rewrite <- list_fmap_compose.
  rewrite (row_order_perm _). reflexivity.
Qed.

Lemma get_questions_ids (db : store.t) :
  models.Question.id <$> store.get_questions row_order db
  = store.QuestionRow.id <$> store.questions db.
Proof.
  unfold store.get_questions. rewrite <- list_fmap_compose.
  by apply list_fmap_ext.
Qed.

Lemma get_questions_elem (db : store.t) q :
  q ∈ store.get_questions row_order db →
  models.Question.choices q
  = store.choices_of row_order db (models.Question.id q).
Proof.
  unfold store.get_questions. by intros (r & -> & _)%list_elem_of_fmap.
Qed.

Lemma choices_of_elem (db : store.t) qid c :
  c ∈ store.choices_of row_order db qid →
  ∃ r, r ∈ store.choices db ∧ store.ChoiceRow.question_id r = qid
       ∧ store.ChoiceRow.id r = models.Choice.id c.
Proof.
  unfold store.choices_of. intros (r & -> & Hr)%list_elem_of_fmap.
  rewrite (row_order_perm _) in Hr.
  apply list_elem_of_filter in Hr as [Hq Hr]. eauto.
Qed.

(** X13: a snapshot read from tables whose primary keys are distinct has
    distinct question identifiers, and each of its questions has distinct
    choice identifiers, in whatever order the database hands out the
    choices of a question. *)
Theorem snapshot_identifiers_unique (db : store.t) :
  store.primary_keys db →
  unique_question_ids (store.get_questions row_order db)
  ∧ Forall unique_choice_ids (store.get_questions row_order db).
Proof.
  intros [Hq Hc]. split.
  - unfold unique_question_ids. by rewrite get_questions_ids.
  - apply Forall_forall. intros q Hin. unfold unique_choice_ids.
    rewrite (get_questions_elem db q Hin), choices_of_ids.
    eapply sublist_NoDup; [exact Hc|apply fmap_sublist, sublist_filter].
Qed.

(** X14: in a snapshot read from tables with distinct primary keys, a
    submitted choice id that is the key of a choice row of another question
    is shown as "Unanswered" and marked incorrect. *)
Theorem choice_of_other_question_is_unanswered (db : store.t) S i q r c :
  store.primary_keys db →
  store.get_questions row_order db !! i = Some q →
  schemas.QuizResult.results (grade (store.get_questions row_order db) S) !! i
  = Some r →
  c ∈ store.choices db →
  store.ChoiceRow.question_id c ≠ models.Question.id q →
  submitted_choice_id S q = Some (store.ChoiceRow.id c) →
  schemas.QuestionResult.user_answer_text r = "Unanswered"
  ∧ schemas.QuestionResult.is_correct r = false.
Proof.
  intros [Hqs Hcs] Hq Hr Hc Hother Hsub.
  rewrite (grade_result_at _ S i q r Hq Hr).
  apply list_elem_of_lookup_2 in Hq.
  assert (∀ c', c' ∈ models.Question.choices q →
                Some (models.Choice.id c') ≠ submitted_choice_id S q) as Hno.
  { intros c' Hc'. rewrite Hsub. intros [= Heq].
    rewrite (get_questions_elem db q Hq) in Hc'.
    apply choices_of_elem in Hc' as (r' & Hr' & Hqid & Hid).
    apply Hother. rewrite <- Hqid. f_equal.
    apply (choice_row_by_key db); [done..|congruence]. }
  split.
  - unfold question_result. cbn. fold (submitted_choice_id S q).
    by apply pick_text_no_match, Forall_forall.
  - apply not_true_is_false. rewrite question_result_is_correct.
    rewrite answer_key_of_lookup;
      [|unfold unique_question_ids; by rewrite get_questions_ids|done].
    fold (submitted_choice_id S q).
    intros (cid & Hu & (c' & Hc' & <-)%first_correct_id_Some).
    apply (Hno c'); [by eapply first_correct_choice_elem|done].
Qed.

End snapshots.

Lemma snapshot_identifiers_unique_witness :
  unique_question_ids
    (store.get_questions reverse
       (store.mk [store.QuestionRow.mk 1 "a"; store.QuestionRow.mk 2 "b"]
          [store.ChoiceRow.mk 10 "x" true 1; store.ChoiceRow.mk 11 "y" false 2;
           store.ChoiceRow.mk 12 "z" false 1])).
Proof.
  refine (proj1 (snapshot_identifiers_unique reverse reverse_Permutation _ _)).
  split; apply (bool_decide_unpack _); vm_compute; exact I.
Defined.

Lemma choice_of_other_question_is_unanswered_witness :
  schemas.QuestionResult.user_answer_text
    (schemas.QuestionResult.mk 2 "b" "Unanswered" "" false) = "Unanswered"
  ∧ schemas.QuestionResult.is_correct
      (schemas.QuestionResult.mk 2 "b" "Unanswered" "" false) = false.
Proof.
  refine (choice_of_other_question_is_unanswered reverse reverse_Permutation
    (store.mk [store.QuestionRow.mk 1 "a"; store.QuestionRow.mk 2 "b"]
       [store.ChoiceRow.mk 10 "x" true 1; store.ChoiceRow.mk 11 "y" false 2;
        store.ChoiceRow.mk 12 "z" false 1])
    [schemas.UserAnswer.mk 2 10] 1%nat
    (models.Question.mk 2 "b" [models.Choice.mk 11 "y" false])
    (schemas.QuestionResult.mk 2 "b" "Unanswered" "" false)
    (store.ChoiceRow.mk 10 "x" true 1) _ _ _ _ _ _).
  - split; apply (bool_decide_unpack _); vm_compute; exact I.
  - reflexivity.
  - reflexivity.
  - set_solver.
  - cbn. lia.
  - reflexivity.
Defined.

(** ** Seeding *)

(** A run of the seed with the keys [next_id] hands out, read back with the
    choices of each question in reverse order of insertion. *)
Example seed_database_next_id :
  store.get_questions reverse
    (seed.seed_database next_id (store.mk [] [])) !! 1%nat
  = Some (models.Question.mk 2
      "Which library is used for data validation and settings management in FastAPI?"
      [models.Choice.mk 6 "Voluptuous" false; models.Choice.mk 5 "Pydantic" true;
       models.Choice.mk 4 "Marshmallow" false]).
Proof. vm_compute. reflexivity. Qed.

Section seeding.

Context (new_id : list Z → Z).
Context (new_id_fresh : ∀ used, new_id used ∉ used).
Context (row_order : list store.ChoiceRow.t → list store.ChoiceRow.t).
Context (row_order_perm : ∀ rows, row_order rows ≡ₚ rows).

(** The inner loop appends rows that carry the question's id and the given
    texts and flags, under fresh keys. *)
Lemma add_choices_spec question_id cs (db : store.t) :
  ∃ rows,
    foldl (seed.add_choice new_id question_id) db cs
    = store.mk (store.questions db) (store.choices db ++ rows)
    ∧ Forall (λ r, store.ChoiceRow.question_id r = question_id) rows
    ∧ (λ r, (store.ChoiceRow.text r, store.ChoiceRow.is_correct r)) <$> rows = cs
    ∧ (NoDup (store.ChoiceRow.id <$> store.choices db) →
       NoDup (store.ChoiceRow.id <$> store.choices db ++ rows)).
Proof.
  revert db. induction cs as [|c cs IH]; intros db.
  - exists []. rewrite app_nil_r. by destruct db.
  - cbn [foldl].
    destruct (IH (seed.add_choice new_id question_id db c))
      as (rows & Heq & Hfk & Hdata & Hnd).
    eexists (_ :: rows). rewrite Heq. cbn [seed.add_choice store.questions
      store.choices] in *. rewrite <- app_assoc in *. cbn [app] in *.
    split_and!; [done|by constructor|by destruct c; rewrite fmap_cons, Hdata|].
    intros Hdb. apply Hnd. rewrite fmap_app. cbn [fmap list_fmap].
    apply NoDup_app. split_and!; [done| |apply NoDup_singleton].
    intros x Hx ->%list_elem_of_singleton. by apply (new_id_fresh _ Hx).
Qed.

(** One iteration of the outer loop on tables with distinct primary keys
    and valid foreign keys: both are kept, the questions already there read
    as before, and one question is added that carries the entry's text and
    the entry's choices. *)
Lemma seed_question_spec (db : store.t) q_data :
  store.primary_keys db → foreign_keys db →
  store.primary_keys (seed.seed_question new_id db q_data)
  ∧ foreign_keys (seed.seed_question new_id db q_data)
  ∧ ∃ q, store.get_questions row_order (seed.seed_question new_id db q_data)
         = store.get_questions row_order db ++ [q]
         ∧ same_question_data (data_of_question q) q_data.
Proof.
  intros [Hqs Hcs] Hfk. unfold seed.seed_question.
  set (qid := new_id (store.QuestionRow.id <$> store.questions db)).
  assert (qid ∉ store.QuestionRow.id <$> store.questions db) as Hqid
    by apply new_id_fresh.
  destruct (add_choices_spec qid q_data.2
              (store.mk (store.questions db
                         ++ [store.QuestionRow.mk qid q_data.1])
                 (store.choices db)))
    as (rows & -> & Hrows & Hdata & Hnd).
  cbn [store.questions store.choices] in *.
  split_and!.
  - split; cbn [store.questions store.choices]; [|by apply Hnd].
    rewrite fmap_app. apply NoDup_app. split_and!; [done| |apply NoDup_singleton].
    by intros x Hx ->%list_elem_of_singleton.
  - unfold foreign_keys. cbn [store.questions store.choices].
    rewrite fmap_app. apply Forall_app. split.
    + eapply Forall_impl; [exact Hfk|]. cbn. intros r Hr.
      apply elem_of_app. by left.
    + eapply Forall_impl; [exact Hrows|]. cbn. intros r ->.
      apply elem_of_app. right. by apply list_elem_of_singleton.
  - eexists. unfold store.get_questions at 1.
    cbn [store.questions]. rewrite fmap_app. cbn [fmap list_fmap]. split.
    + f_equal.
      apply list_fmap_ext. intros i r Hr. f_equal.
      unfold store.choices_of. cbn [store.choices]. do 2 f_equal.
      rewrite filter_app, (filter_none _ rows), app_nil_r; [done|].
      eapply Forall_impl; [exact Hrows|]. cbn. intros r' -> Heq.
      apply Hqid. rewrite Heq.
      by eapply list_elem_of_fmap_2, list_elem_of_lookup_2.
    + unfold same_question_data, data_of_question, store.choices_of.
      cbn [fst snd models.Question.text models.Question.choices store.choices
           store.QuestionRow.id store.QuestionRow.text].
      split; [done|].
      rewrite filter_app, (filter_none _ (store.choices db)), app_nil_l.
      * rewrite filter_all by done. rewrite <- list_fmap_compose.
        rewrite (row_order_perm rows), <- Hdata. reflexivity.
      * eapply Forall_impl; [exact Hfk|]. cbn. intros r Hr Heq.
        apply Hqid. by rewrite <- Heq.
Qed.

(** The loop of lines 65-75 over any list of entries. *)
Lemma seed_loop_spec data (db : store.t) :
  store.primary_keys db → foreign_keys db →
  store.primary_keys (foldl (seed.seed_question new_id) db data)
  ∧ foreign_keys (foldl (seed.seed_question new_id) db data)
  ∧ ∃ added,
      store.get_questions row_order (foldl (seed.seed_question new_id) db data)
      = store.get_questions row_order db ++ added
      ∧ Forall2 same_question_data (data_of_question <$> added) data.
Proof.
  revert db. induction data as [|q_data data IH]; intros db Hpk Hfk.
  - split_and!; [done..|]. exists []. rewrite app_nil_r. by split; [|constructor].
  - cbn [foldl].
    destruct (seed_question_spec db q_data Hpk Hfk)
      as (Hpk' & Hfk' & q & Hq & Hdata).
    destruct (IH _ Hpk' Hfk') as (Hpk'' & Hfk'' & added & Heq & Hall).
    split_and!; [done..|]. exists (q :: added).
    rewrite Heq, Hq, <- app_assoc. split; [done|].
    rewrite fmap_cons. by constructor.
Qed.

Lemma seed_database_spec (db : store.t) :
  store.primary_keys (seed.seed_database new_id db)
  ∧ foreign_keys (seed.seed_database new_id db)
  ∧ Forall2 same_question_data
      (data_of_question
         <$> store.get_questions row_order (seed.seed_database new_id db))
      seed.questions_data.
Proof.
  unfold seed.seed_database. cbn [store.questions store.choices].
  destruct (seed_loop_spec seed.questions_data (store.mk [] []))
    as (Hpk & Hfk & added & Heq & Hall).
  - split; constructor.
  - constructor.
  - split_and!; [done..|]. by rewrite Heq.
Qed.

(** X15: whatever the tables held before, whatever fresh keys the database
    hands out and in whatever order it returns the choices of a question,
    after [seed_database] the snapshot reads the five questions of
    [questions_data], in order, each with the choices and flags of its
    entry (up to the order of the choices). *)
Theorem seed_database_loads_questions_data (db : store.t) :
  Forall2 same_question_data
    (data_of_question
       <$> store.get_questions row_order (seed.seed_database new_id db))
    seed.questions_data.
Proof. apply seed_database_spec. Qed.

(** X17: on the seeded store, whatever it held before, every submission is
    graded out of 5, and answering each question with its flagged choice
    scores 5. *)
Theorem seeded_quiz_scores (db : store.t) S :
  schemas.QuizResult.total
    (grade (store.get_questions row_order (seed.seed_database new_id db)) S) = 5
  ∧ schemas.QuizResult.score
      (grade (store.get_questions row_order (seed.seed_database new_id db))
         (key_answers
            (store.get_questions row_order (seed.seed_database new_id db))))
    = 5.
Proof.
  destruct (seed_database_spec db) as ([Hqs _] & _ & Hdata).
  assert (unique_question_ids
            (store.get_questions row_order (seed.seed_database new_id db)))
    as Hnd by (unfold unique_question_ids; by rewrite get_questions_ids).
  revert Hdata Hnd.
  generalize (store.get_questions row_order (seed.seed_database new_id db)).
  intros Q Hdata Hnd.
  assert (length Q = 5%nat) as Hlen
    by (apply Forall2_length in Hdata; by rewrite length_fmap in Hdata).
  assert (Forall has_flagged_choice Q) as Hflag.
  { assert (Forall (λ d : string * list (string * bool),
                      Exists (λ c : string * bool, c.2 = true) d.2)
                   seed.questions_data) as Hall
      by (apply (bool_decide_unpack _); vm_compute; exact I).
    revert Hdata Hall. generalize seed.questions_data. clear.
    induction Q as [|q Q IH]; intros data Hdata Hall; [done|].
    rewrite fmap_cons in Hdata.
    inversion Hdata as [|d1 d data' data'' [_ Hperm] Hrest]; subst.
    apply Forall_cons in Hall as [Hd Hall]. constructor; [|by eapply IH].
    apply has_flagged_choice_data. by rewrite Hperm. }
  rewrite !grade_eq.
  cbn [schemas.QuizResult.total schemas.QuizResult.score].
  rewrite user_answers_map_of_key_answers. split; [by rewrite Hlen|].
  rewrite count_correct_key_answers by done.
  by rewrite filter_all, Hlen by done.
Qed.

End seeding.

Lemma seed_database_loads_questions_data_witness :
  Forall2 same_question_data
    (data_of_question
       <$> store.get_questions reverse
             (seed.seed_database next_id
                (store.mk [store.QuestionRow.mk 7 "Initial question"]
                   [store.ChoiceRow.mk 3 "old" true 7])))
    seed.questions_data.
Proof.
  apply seed_database_loads_questions_data.
  - exact next_id_fresh.
  - exact reverse_Permutation.
Defined.

Lemma seeded_quiz_scores_witness :
  schemas.QuizResult.total
    (grade (store.get_questions reverse
              (seed.seed_database next_id (store.mk [] [])))
       demo_answers) = 5.
Proof.
  refine (proj1 (seeded_quiz_scores next_id next_id_fresh reverse
    reverse_Permutation (store.mk [] []) demo_answers)).
Defined.

(** X16: whatever the tables held before, after [seed_database] with fresh
    keys the primary keys of both tables are distinct and every choice row's
    foreign key is the key of a stored question. *)
Theorem seed_database_keeps_keys (new_id : list Z → Z) (db : store.t) :
  (∀ used, new_id used ∉ used) →
  store.primary_keys (seed.seed_database new_id db)
  ∧ foreign_keys (seed.seed_database new_id db).
Proof.
  intros Hfresh.
  destruct (seed_database_spec new_id Hfresh (λ rows, rows)
              (λ rows, reflexivity rows) db) as (Hpk & Hfk & _).
  done.
Qed.

Lemma seed_database_keeps_keys_witness :
  store.primary_keys
    (seed.seed_database next_id
       (store.mk [store.QuestionRow.mk 7 "Initial question"]
          [store.ChoiceRow.mk 3 "old" true 7])).
Proof.
  refine (proj1 (seed_database_keeps_keys next_id _ next_id_fresh)).
Defined.
